(** * rus-ts: Rust-like [Option] and [Result] for TypeScript

    A shallow embedding of [src/util.ts], [src/option/*.ts] and
    [src/result/*.ts].

    The development has two layers.

    - The value layer (modules [util], [option], [result], [OptionImpl],
      [ResultImpl]) identifies an object with its contents.  Every method
      of [OptionImpl] and [ResultImpl] is a function on JavaScript
      values.  Two values are compared by [equal]: as a deep comparison
      sees them, which reads every payload through the proxy.
    - The store layer (module [Store]) keeps object identities: every
      [new] allocates a cell of a store, and the methods are computations
      over that store.  It is used for the statements about mutation and
      about which object a method returns.

    The last part shows that the store layer refines the value layer:
    method by method, a call in the store completes as the call on the
    represented values does, with a result that represents its result. *)

From stdpp Require Import base list.
From Stdlib Require Import ZArith String Lia.

(** ** JavaScript values

    Type parameters are erased at run time, so payloads range over all
    values.  A value is a primitive or an object; [jsval O] leaves open
    what stands for an object: the object itself in the value layer, its
    address in the store layer.

    Numbers are only ever stored and handed to callbacks by the library,
    never computed with; integer payloads are enough for the examples. *)

Inductive jsval (O : Type) : Type :=
| undefined
| null
| boolean (b : bool)
| number (n : Z)
| str (s : string)
| object (o : O).

Arguments undefined {O}.
Arguments null {O}.
Arguments boolean {O} b.
Arguments number {O} n.
Arguments str {O} s.
Arguments object {O} o.

(** ** Completions

    A method called on a value that does not have it throws a [TypeError].
    The static types rule this out; the embedding keeps the case so that
    the methods are total on all values. *)

Inductive completion (A : Type) : Type :=
| normal (a : A)
| TypeError.

Arguments normal {A} a.
Arguments TypeError {A}.

#[global] Instance completion_ret : MRet completion := @normal.

#[global] Instance completion_bind : MBind completion :=
  fun A B (k : A -> completion B) (c : completion A) =>
    match c with
    | normal a => k a
    | TypeError => TypeError
    end.

#[global] Instance completion_fmap : FMap completion :=
  fun A B (f : A -> B) (c : completion A) =>
    match c with
    | normal a => normal (f a)
    | TypeError => TypeError
    end.

(** ** [src/util.ts] *)

Module util.
Section Proxy.
Context {O : Type}.

Definition nullish (v : jsval O) : bool :=
  match v with
  | undefined | null => true
  | _ => false
  end.

(** [a ?? b] *)
Definition nullish_coalescing (a b : jsval O) : jsval O :=
  if nullish a then b else a.

(** The [get] handler of the proxy returned by [mixin(object, trait)]:
    [(target, key) => target[key] ?? trait[key]].  The two arguments
    are the results of the two property look-ups. *)
Definition get (target_key trait_key : jsval O) : jsval O :=
  nullish_coalescing target_key trait_key.

End Proxy.
End util.

(** Property [value] of the objects behind a proxy.  [own_value] is
    [target['value']]: the field set by the constructor of [SomeClass],
    [OkClass] and [ErrClass], and [undefined] on an object without such a
    field.  [trait_value] is [trait['value']]: neither [OptionImpl] nor
    [ResultImpl] declares a member [value]. *)

Class Target (O T : Type) : Type := own_value : T -> jsval O.

Definition trait_value {O : Type} : jsval O := undefined.

(** [this.value], read through the proxy. *)
Definition read_value {O T : Type} `{Target O T} (this : T) : jsval O :=
  util.get (own_value this) trait_value.

(** * The value layer

    An [Option] is the proxy built by [mixin] around an instance of class
    [Some] or of class [None] (imported as [SomeClass] and [NoneClass] by
    [src/option/index.ts]); the trait of every such proxy is the one
    [optionImpl] object, so the proxy is determined by its target.  The
    same holds for [Result], [OkClass], [ErrClass] and [resultImpl]. *)

#[warnings="-register-all"]
Inductive Object : Type :=
| array (items : list (jsval Object))
| option_object (o : Option)
| result_object (r : Result)
with Option : Type :=
| SomeClass (value_ : jsval Object)     (* new SomeClass(value) *)
| NoneClass                             (* new NoneClass() *)
with Result : Type :=
| OkClass (value_ : jsval Object)       (* new OkClass(value) *)
| ErrClass (value_ : jsval Object).     (* new ErrClass(value) *)

Abbreviation value := (jsval Object).

Definition Option_value (o : Option) : value := object (option_object o).
Definition Result_value (r : Result) : value := object (result_object r).

Coercion Option_value : Option >-> jsval.
Coercion Result_value : Result >-> jsval.

#[global] Instance Option_target : Target Object Option :=
  fun o => match o with
           | SomeClass v => v
           | NoneClass => undefined
           end.

#[global] Instance Result_target : Target Object Result :=
  fun r => match r with
           | OkClass v => v
           | ErrClass e => e
           end.

(** ** [src/option/some.ts], [src/option/none.ts], [src/option/index.ts]

    [isSome] and [isNone] are found on the target (the class methods), so
    the proxy never reaches the members of the same name in [OptionImpl]. *)

Module option.

Definition Some (v : value) : Option := SomeClass v.
Definition None : Option := NoneClass.

Definition isSome (this : Option) : bool :=
  match this with
  | SomeClass _ => true      (* Some.isSome *)
  | NoneClass => false       (* None.isSome *)
  end.

Definition isNone (this : Option) : bool :=
  match this with
  | SomeClass _ => false     (* Some.isNone *)
  | NoneClass => true        (* None.isNone *)
  end.

End option.

(** ** [src/result/ok.ts], [src/result/err.ts], [src/result/index.ts] *)

Module result.

Definition Ok (v : value) : Result := OkClass v.
Definition Err (e : value) : Result := ErrClass e.

Definition isOk (this : Result) : bool :=
  match this with
  | OkClass _ => true        (* Ok.isOk *)
  | ErrClass _ => false      (* Err.isOk *)
  end.

Definition isErr (this : Result) : bool :=
  match this with
  | OkClass _ => false       (* Ok.isErr *)
  | ErrClass _ => true       (* Err.isErr *)
  end.

End result.

(** A method of [ResultImpl] or of the [Ok]/[Err] classes looked up on an
    arbitrary value: only a [Result] proxy has it.  Likewise for
    [Option]. *)

Definition as_Result (v : value) : completion Result :=
  match v with
  | object (result_object r) => normal r
  | _ => TypeError
  end.

Definition as_Option (v : value) : completion Option :=
  match v with
  | object (option_object o) => normal o
  | _ => TypeError
  end.

(** ** [src/option/impl.ts] *)

Module OptionImpl.
Import option result.

Definition unwrapOr (this : Option) (def : value) : value :=
  if isSome this then read_value this else def.

Definition unwrapOrElse (this : Option) (f : unit -> value) : value :=
  if isSome this then read_value this else f tt.

Definition map (this : Option) (f : value -> value) : Option :=
  if isSome this then Some (f (read_value this)) else None.

Definition mapOr (this : Option) (def : value) (f : value -> value)
  : value :=
  if isSome this then f (read_value this) else def.

Definition mapOrElse (this : Option) (def : unit -> value)
  (f : value -> value) : value :=
  if isSome this then f (read_value this) else def tt.

Definition okOr (this : Option) (err : value) : Result :=
  if isSome this then Ok (read_value this) else Err err.

Definition okOrElse (this : Option) (err : unit -> value) : Result :=
  if isSome this then Ok (read_value this) else Err (err tt).

Definition and (this optb : Option) : Option :=
  if isSome this then optb else this.

Definition andThen (this : Option) (f : value -> Option) : Option :=
  if isSome this then f (read_value this) else this.

Definition filter (this : Option) (predicate : value -> bool) : Option :=
  if isSome this && predicate (read_value this) then this else None.

Definition or (this optb : Option) : Option :=
  if isSome this then this else optb.

Definition orElse (this : Option) (f : unit -> Option) : Option :=
  if isSome this then this else f tt.

Definition xor (this optb : Option) : Option :=
  if isSome this && isNone optb then this
  else if isNone this && isSome optb then optb
  else None.

Definition zip (this other : Option) : Option :=
  if isSome this && isSome other
  then Some (object (array [read_value this; read_value other]))
  else None.

(** [this.value.isOk()] is a method call on the payload. *)
Definition transpose (this : Option) : completion Result :=
  if isSome this then
    r ← as_Result (read_value this);
    normal (if isOk r then Ok (Some (read_value r))
            else Err (read_value r))
  else normal (Ok None).

(** The payload is returned as it is, whatever it is. *)
Definition flatten (this : Option) : value :=
  if isSome this then read_value this else this.

Definition fromUndefinable (v : value) : Option :=
  match v with
  | undefined => None        (* typeof value === 'undefined' *)
  | _ => Some v
  end.

Definition fromNullable (v : value) : Option :=
  match v with
  | null => None             (* value === null *)
  | _ => Some v
  end.

End OptionImpl.

(** ** [src/result/impl.ts] *)

Module ResultImpl.
Import option result.

Definition ok (this : Result) : Option :=
  if isOk this then Some (read_value this) else None.

Definition err (this : Result) : Option :=
  if isOk this then None else Some (read_value this).

Definition map (this : Result) (op : value -> value) : Result :=
  if isOk this then Ok (op (read_value this)) else this.

Definition mapOr (this : Result) (def : value) (f : value -> value)
  : value :=
  if isOk this then f (read_value this) else def.

Definition mapOrElse (this : Result) (def f : value -> value) : value :=
  if isOk this then f (read_value this) else def (read_value this).

Definition mapErr (this : Result) (op : value -> value) : Result :=
  if isOk this then this else Err (op (read_value this)).

Definition and (this res : Result) : Result :=
  if isOk this then res else this.

Definition andThen (this : Result) (op : value -> Result) : Result :=
  if isOk this then op (read_value this) else this.

Definition or (this res : Result) : Result :=
  if isOk this then this else res.

Definition orElse (this : Result) (op : value -> Result) : Result :=
  if isOk this then this else op (read_value this).

Definition unwrapOr (this : Result) (def : value) : value :=
  if isOk this then read_value this else def.

Definition unwrapOrElse (this : Result) (op : value -> value) : value :=
  if isOk this then read_value this else op (read_value this).

(** [this.value.isSome()] is a method call on the payload. *)
Definition transpose (this : Result) : completion Option :=
  if isOk this then
    o ← as_Option (read_value this);
    normal (if isSome o then Some (Ok (read_value o)) else None)
  else normal (Some (Err (read_value this))).

End ResultImpl.

(** * The store layer

    Objects have an identity here.  [new] appends an instance to the
    store and returns its address; a value of the layer is a primitive or
    an address.  A proxy and its target are created together by [Some],
    [Ok] and [Err] and only the proxy is handed out, so one cell stands
    for both. *)

Module Store.

Abbreviation loc := nat.

Abbreviation value := (jsval loc).

Inductive instance : Type :=
| SomeClass (value_ : value)
| NoneClass
| OkClass (value_ : value)
| ErrClass (value_ : value)
| Array (items : list value).

Abbreviation store := (list instance).

#[global] Instance instance_target : Target loc instance :=
  fun o => match o with
           | SomeClass v | OkClass v | ErrClass v => v
           | NoneClass | Array _ => undefined
           end.

(** Computations: a completion and the store that is left. *)
Definition M (A : Type) : Type := store -> completion A * store.

#[global] Instance M_ret : MRet M := fun A a σ => (normal a, σ).

#[global] Instance M_bind : MBind M :=
  fun A B (k : A -> M B) (m : M A) σ =>
    match m σ with
    | (normal a, σ') => k a σ'
    | (TypeError, σ') => (TypeError, σ')
    end.

Definition throw {A : Type} : M A := fun σ => (TypeError, σ).

(** [new C(...)] *)
Definition new (o : instance) : M value :=
  fun σ => (normal (object (List.length σ)), σ ++ [o]).

(** The object a value refers to; a primitive has no methods. *)
Definition load (v : value) : M instance :=
  fun σ =>
    match v with
    | object l =>
        match σ !! l with
        | Some o => (normal o, σ)
        | None => (TypeError, σ)
        end
    | _ => (TypeError, σ)
    end.

(** Assignment to the field of an object.  No method of the library
    does it; a callback could. *)
Definition assign (l : loc) (o : instance) : M unit :=
  fun σ => (normal tt, <[l := o]> σ).

(** [a && b] on computed booleans: [b] runs only when [a] is true. *)
Definition and_also (a b : M bool) : M bool :=
  x ← a; if x : bool then b else mret false.

(** [this.value]: through the proxy on an object, a [TypeError] on
    [undefined] and [null], [undefined] on the other primitives. *)
Definition get_value (this : value) : M value :=
  match this with
  | object _ => o ← load this; mret (read_value o)
  | undefined | null => throw
  | _ => mret undefined
  end.

(** The store once the two modules are loaded: [src/option/index.ts]
    creates the one [None]. *)
Definition loaded : store := [NoneClass].

Module option.

Definition Some (v : value) : M value := new (SomeClass v).
Definition None : value := object 0.

Definition isSome (this : value) : M bool :=
  o ← load this;
  match o with
  | SomeClass _ => mret true
  | NoneClass => mret false
  | _ => throw
  end.

Definition isNone (this : value) : M bool :=
  o ← load this;
  match o with
  | SomeClass _ => mret false
  | NoneClass => mret true
  | _ => throw
  end.

End option.

Module result.

Definition Ok (v : value) : M value := new (OkClass v).
Definition Err (e : value) : M value := new (ErrClass e).

Definition isOk (this : value) : M bool :=
  o ← load this;
  match o with
  | OkClass _ => mret true
  | ErrClass _ => mret false
  | _ => throw
  end.

Definition isErr (this : value) : M bool :=
  o ← load this;
  match o with
  | OkClass _ => mret false
  | ErrClass _ => mret true
  | _ => throw
  end.

End result.

Module OptionImpl.
Import option result.

Definition unwrapOr (this def : value) : M value :=
  b ← isSome this; if b : bool then get_value this else mret def.

Definition unwrapOrElse (this : value) (f : unit -> M value) : M value :=
  b ← isSome this; if b : bool then get_value this else f tt.

Definition map (this : value) (f : value -> M value) : M value :=
  b ← isSome this;
  if b : bool then v ← get_value this; w ← f v; Some w
  else mret None.

Definition mapOr (this def : value) (f : value -> M value) : M value :=
  b ← isSome this;
  if b : bool then v ← get_value this; f v else mret def.

Definition mapOrElse (this : value) (def : unit -> M value)
  (f : value -> M value) : M value :=
  b ← isSome this;
  if b : bool then v ← get_value this; f v else def tt.

Definition okOr (this err : value) : M value :=
  b ← isSome this;
  if b : bool then v ← get_value this; Ok v else Err err.

Definition okOrElse (this : value) (err : unit -> M value) : M value :=
  b ← isSome this;
  if b : bool then v ← get_value this; Ok v else e ← err tt; Err e.

Definition and (this optb : value) : M value :=
  b ← isSome this; mret (if b : bool then optb else this).

Definition andThen (this : value) (f : value -> M value) : M value :=
  b ← isSome this;
  if b : bool then v ← get_value this; f v else mret this.

Definition filter (this : value) (predicate : value -> M bool)
  : M value :=
  b ← and_also (isSome this) (v ← get_value this; predicate v);
  mret (if b : bool then this else None).

Definition or (this optb : value) : M value :=
  b ← isSome this; mret (if b : bool then this else optb).

Definition orElse (this : value) (f : unit -> M value) : M value :=
  b ← isSome this; if b : bool then mret this else f tt.

Definition xor (this optb : value) : M value :=
  b ← and_also (isSome this) (isNone optb);
  if b : bool then mret this
  else
    c ← and_also (isNone this) (isSome optb);
    mret (if c : bool then optb else None).

Definition zip (this other : value) : M value :=
  b ← and_also (isSome this) (isSome other);
  if b : bool then
    s ← get_value this; o ← get_value other;
    pair ← new (Array [s; o]); Some pair
  else mret None.

Definition transpose (this : value) : M value :=
  b ← isSome this;
  if b : bool then
    r ← get_value this;
    k ← isOk r;
    if k : bool then
      r ← get_value this; v ← get_value r; s ← Some v; Ok s
    else
      r ← get_value this; e ← get_value r; Err e
  else Ok None.

Definition flatten (this : value) : M value :=
  b ← isSome this; if b : bool then get_value this else mret this.

End OptionImpl.

Module ResultImpl.
Import option result.

Definition ok (this : value) : M value :=
  b ← isOk this;
  if b : bool then v ← get_value this; Some v else mret None.

Definition err (this : value) : M value :=
  b ← isOk this;
  if b : bool then mret None else e ← get_value this; Some e.

Definition map (this : value) (op : value -> M value) : M value :=
  b ← isOk this;
  if b : bool then v ← get_value this; w ← op v; Ok w
  else mret this.

Definition mapOr (this def : value) (f : value -> M value) : M value :=
  b ← isOk this;
  if b : bool then v ← get_value this; f v else mret def.

Definition mapOrElse (this : value) (def f : value -> M value)
  : M value :=
  b ← isOk this;
  if b : bool then v ← get_value this; f v
  else e ← get_value this; def e.

Definition mapErr (this : value) (op : value -> M value) : M value :=
  b ← isOk this;
  if b : bool then mret this
  else e ← get_value this; w ← op e; Err w.

Definition and (this res : value) : M value :=
  b ← isOk this; mret (if b : bool then res else this).

Definition andThen (this : value) (op : value -> M value) : M value :=
  b ← isOk this;
  if b : bool then v ← get_value this; op v else mret this.

Definition or (this res : value) : M value :=
  b ← isOk this; mret (if b : bool then this else res).

Definition orElse (this : value) (op : value -> M value) : M value :=
  b ← isOk this;
  if b : bool then mret this else e ← get_value this; op e.

Definition unwrapOr (this def : value) : M value :=
  b ← isOk this; if b : bool then get_value this else mret def.

Definition unwrapOrElse (this : value) (op : value -> M value)
  : M value :=
  b ← isOk this;
  if b : bool then get_value this else e ← get_value this; op e.

Definition transpose (this : value) : M value :=
  b ← isOk this;
  if b : bool then
    o ← get_value this;
    k ← isSome o;
    if k : bool then
      o ← get_value this; v ← get_value o; r ← Ok v; Some r
    else mret None
  else e ← get_value this; r ← Err e; Some r.

End ResultImpl.

(** *** Method calls

    One constructor for each method of the two classes, with its
    arguments; [invoke m this] is the call [this.m(...)]. *)

Inductive method : Type :=
| Option_isSome
| Option_isNone
| Option_unwrapOr (def : value)
| Option_unwrapOrElse (f : unit -> M value)
| Option_map (f : value -> M value)
| Option_mapOr (def : value) (f : value -> M value)
| Option_mapOrElse (def : unit -> M value) (f : value -> M value)
| Option_okOr (err : value)
| Option_okOrElse (err : unit -> M value)
| Option_and (optb : value)
| Option_andThen (f : value -> M value)
| Option_filter (predicate : value -> M bool)
| Option_or (optb : value)
| Option_orElse (f : unit -> M value)
| Option_xor (optb : value)
| Option_zip (other : value)
| Option_transpose
| Option_flatten
| Result_isOk
| Result_isErr
| Result_ok
| Result_err
| Result_map (op : value -> M value)
| Result_mapOr (def : value) (f : value -> M value)
| Result_mapOrElse (def f : value -> M value)
| Result_mapErr (op : value -> M value)
| Result_and (res : value)
| Result_andThen (op : value -> M value)
| Result_or (res : value)
| Result_orElse (op : value -> M value)
| Result_unwrapOr (def : value)
| Result_unwrapOrElse (op : value -> M value)
| Result_transpose.

Definition invoke (m : method) (this : value) : M value :=
  match m with
  | Option_isSome => b ← option.isSome this; mret (boolean b)
  | Option_isNone => b ← option.isNone this; mret (boolean b)
  | Option_unwrapOr def => OptionImpl.unwrapOr this def
  | Option_unwrapOrElse f => OptionImpl.unwrapOrElse this f
  | Option_map f => OptionImpl.map this f
  | Option_mapOr def f => OptionImpl.mapOr this def f
  | Option_mapOrElse def f => OptionImpl.mapOrElse this def f
  | Option_okOr err => OptionImpl.okOr this err
  | Option_okOrElse err => OptionImpl.okOrElse this err
  | Option_and optb => OptionImpl.and this optb
  | Option_andThen f => OptionImpl.andThen this f
  | Option_filter predicate => OptionImpl.filter this predicate
  | Option_or optb => OptionImpl.or this optb
  | Option_orElse f => OptionImpl.orElse this f
  | Option_xor optb => OptionImpl.xor this optb
  | Option_zip other => OptionImpl.zip this other
  | Option_transpose => OptionImpl.transpose this
  | Option_flatten => OptionImpl.flatten this
  | Result_isOk => b ← result.isOk this; mret (boolean b)
  | Result_isErr => b ← result.isErr this; mret (boolean b)
  | Result_ok => ResultImpl.ok this
  | Result_err => ResultImpl.err this
  | Result_map op => ResultImpl.map this op
  | Result_mapOr def f => ResultImpl.mapOr this def f
  | Result_mapOrElse def f => ResultImpl.mapOrElse this def f
  | Result_mapErr op => ResultImpl.mapErr this op
  | Result_and res => ResultImpl.and this res
  | Result_andThen op => ResultImpl.andThen this op
  | Result_or res => ResultImpl.or this res
  | Result_orElse op => ResultImpl.orElse this op
  | Result_unwrapOr def => ResultImpl.unwrapOr this def
  | Result_unwrapOrElse op => ResultImpl.unwrapOrElse this op
  | Result_transpose => ResultImpl.transpose this
  end.

(** A computation that leaves every object of the store as it found
    it: all it may do is allocate. *)
Definition extending {A : Type} (m : M A) : Prop :=
  ∀ σ : store, σ `prefix_of` (m σ).2.

(** The callbacks handed to a method are the caller's code. *)
Definition callbacks_extending (m : method) : Prop :=
  match m with
  | Option_unwrapOrElse f | Option_okOrElse f | Option_orElse f =>
      extending (f tt)
  | Option_map f | Option_mapOr _ f | Option_andThen f
  | Result_map f | Result_mapOr _ f | Result_mapErr f
  | Result_andThen f | Result_orElse f | Result_unwrapOrElse f =>
      ∀ v, extending (f v)
  | Option_mapOrElse def f => extending (def tt) ∧ ∀ v, extending (f v)
  | Result_mapOrElse def f =>
      (∀ e, extending (def e)) ∧ ∀ v, extending (f v)
  | Option_filter predicate => ∀ v, extending (predicate v)
  | _ => True
  end.

(** A call leaves its receiver as it was. *)
Definition receiver_unchanged (m : method) (l : loc) (σ : store) : Prop :=
  ∀ o, σ !! l = Some o → (invoke m (object l) σ).2 !! l = Some o.

End Store.

(** * Linking the layers

    [represents σ v p]: followed through the store [σ], the store value
    [v] has the contents [p]. *)

Inductive represents (σ : Store.store) : Store.value → value → Prop :=
| represents_undefined : represents σ undefined undefined
| represents_null : represents σ null null
| represents_boolean b : represents σ (boolean b) (boolean b)
| represents_number n : represents σ (number n) (number n)
| represents_str s : represents σ (str s) (str s)
| represents_Some l v p :
    σ !! l = Some (Store.SomeClass v) →
    represents σ v p →
    represents σ (object l) (SomeClass p)
| represents_None l :
    σ !! l = Some Store.NoneClass →
    represents σ (object l) NoneClass
| represents_Ok l v p :
    σ !! l = Some (Store.OkClass v) →
    represents σ v p →
    represents σ (object l) (OkClass p)
| represents_Err l v p :
    σ !! l = Some (Store.ErrClass v) →
    represents σ v p →
    represents σ (object l) (ErrClass p)
| represents_array l vs ps :
    σ !! l = Some (Store.Array vs) →
    represents_all σ vs ps →
    represents σ (object l) (object (array ps))
with represents_all (σ : Store.store)
  : list Store.value → list value → Prop :=
| represents_nil : represents_all σ [] []
| represents_cons v p vs ps :
    represents σ v p →
    represents_all σ vs ps →
    represents_all σ (v :: vs) (p :: ps).

Scheme represents_mut := Induction for represents Sort Prop
  with represents_all_mut := Induction for represents_all Sort Prop.

(** Two booleans are related when they are equal. *)
Definition same_bool (σ : Store.store) (a b : bool) : Prop := a = b.

(** [simulates R m c σ]: run from [σ], the computation [m] of the store
    layer completes as [c] does, with related results, and has only
    allocated. *)
Definition simulates {A B : Type} (R : Store.store → A → B → Prop)
  (m : Store.M A) (c : completion B) (σ : Store.store) : Prop :=
  match c with
  | normal b =>
      ∃ a σ', m σ = (normal a, σ') ∧ σ `prefix_of` σ' ∧ R σ' a b
  | TypeError => ∃ σ', m σ = (TypeError, σ') ∧ σ `prefix_of` σ'
  end.

(** A callback of the store layer and a callback of the value layer that
    do the same, in every store that the loaded modules can reach. *)
Definition callback_simulates {A B : Type}
  (R : Store.store → A → B → Prop)
  (f : Store.value → Store.M A) (g : value → B) : Prop :=
  ∀ σ v p, Store.loaded `prefix_of` σ → represents σ v p →
           simulates R (f v) (normal (g p)) σ.

Definition thunk_simulates {A B : Type}
  (R : Store.store → A → B → Prop)
  (f : unit → Store.M A) (g : unit → B) : Prop :=
  ∀ σ, Store.loaded `prefix_of` σ → simulates R (f tt) (normal (g tt)) σ.

(** ** Equality as a comparison sees it

    A deep comparison of two values, and every method of the library,
    reach the payload of a [Some], an [Ok] or an [Err] through the proxy:
    what they see of a value is the value with each such payload replaced
    by what [this.value] gives, all the way down.  The elements of an
    array are read as they are. *)

Definition observe_with (observe_Object : Object → Object) (v : value)
  : value :=
  match v with
  | object o => object (observe_Object o)
  | _ => v
  end.

Fixpoint observe_Object (o : Object) : Object :=
  match o with
  | array items => array (map (observe_with observe_Object) items)
  | option_object x => option_object (observe_Option x)
  | result_object r => result_object (observe_Result r)
  end
with observe_Option (x : Option) : Option :=
  match x with
  | SomeClass v =>
      SomeClass (util.get (observe_with observe_Object v) trait_value)
  | NoneClass => NoneClass
  end
with observe_Result (r : Result) : Result :=
  match r with
  | OkClass v =>
      OkClass (util.get (observe_with observe_Object v) trait_value)
  | ErrClass e =>
      ErrClass (util.get (observe_with observe_Object e) trait_value)
  end.

Definition observe (v : value) : value := observe_with observe_Object v.

(** Two values are equal when they are observed alike. *)
Definition equal (a b : value) : Prop := observe a = observe b.

(** ** Compositions named by the properties below *)

(** [x.transpose().transpose()] on an [Option<Result<T, E>>]. *)
Definition transpose_roundtrip (x : Option) : completion Option :=
  r ← OptionImpl.transpose x; ResultImpl.transpose r.

(** [x.flatten().flatten()]: the second [flatten] is a method call on
    what the first one returned. *)
Definition flatten_twice (x : Option) : completion value :=
  o ← as_Option (OptionImpl.flatten x); mret (OptionImpl.flatten o).

(** * Properties of the value layer *)

Section ValueLayer.
Import option result.

(** ** Reading a payload through the proxy *)

Section ProxyRead.

(** [target[key] ?? trait[key]] gives the stored payload back unless the
    payload is [null]: then the look-up falls through to the trait,
    which has no [value], and the read yields [undefined]. *)
Lemma read_value_Some (v : value) :
  read_value (Some v) = if util.nullish v then undefined else v.
Proof. by destruct v. Qed.

Lemma read_value_Ok (v : value) :
  read_value (Ok v) = if util.nullish v then undefined else v.
Proof. by destruct v. Qed.

Lemma read_value_Err (e : value) :
  read_value (Err e) = if util.nullish e then undefined else e.
Proof. by destruct e. Qed.

Lemma read_value_None : read_value None = undefined.
Proof. reflexivity. Qed.

Lemma read_value_Some_not_null (v : value) :
  v ≠ null → read_value (Some v) = v.
Proof. by destruct v. Qed.

Lemma read_value_Ok_not_null (v : value) :
  v ≠ null → read_value (Ok v) = v.
Proof. by destruct v. Qed.

Lemma read_value_Err_not_null (e : value) :
  e ≠ null → read_value (Err e) = e.
Proof. by destruct e. Qed.

(** An object is never nullish, so a nested [Option] or [Result] is read
    back as it is. *)
Lemma read_value_Some_Option (o : Option) : read_value (Some o) = o.
Proof. reflexivity. Qed.

Lemma read_value_Some_Result (r : Result) : read_value (Some r) = r.
Proof. reflexivity. Qed.

Lemma read_value_Ok_Option (o : Option) : read_value (Ok o) = o.
Proof. reflexivity. Qed.

End ProxyRead.

(** ** Observed equality *)

Section Observed.

#[global] Instance equal_equivalence : Equivalence equal.
Proof.
  split.
  - by intros a.
  - by intros a b.
  - intros a b c. unfold equal. congruence.
Qed.

(** Observation goes through the read of the proxy, and reading twice is
    reading once. *)
Lemma observe_get (v : value) :
  observe (util.get v trait_value) = util.get (observe v) trait_value.
Proof. by destruct v. Qed.

Lemma get_get (v : value) :
  util.get (util.get v trait_value) trait_value = util.get v trait_value.
Proof. by destruct v. Qed.

Lemma observe_Some (v : value) :
  observe (Some v) = Some (util.get (observe v) trait_value).
Proof. reflexivity. Qed.

Lemma observe_Ok (v : value) :
  observe (Ok v) = Ok (util.get (observe v) trait_value).
Proof. reflexivity. Qed.

Lemma observe_Err (e : value) :
  observe (Err e) = Err (util.get (observe e) trait_value).
Proof. reflexivity. Qed.

(** A [Some], an [Ok] or an [Err] rebuilt from what the proxy reads of
    its payload is equal to the one it was read from. *)
Lemma equal_Some_read (v : value) : equal (Some (read_value (Some v))) (Some v).
Proof.
  unfold equal. rewrite !observe_Some. change (read_value (Some v))
    with (util.get v trait_value).
  by rewrite observe_get, get_get.
Qed.

Lemma equal_Ok_read (v : value) : equal (Ok (read_value (Ok v))) (Ok v).
Proof.
  unfold equal. rewrite !observe_Ok. change (read_value (Ok v))
    with (util.get v trait_value).
  by rewrite observe_get, get_get.
Qed.

Lemma equal_Err_read (e : value) : equal (Err (read_value (Err e))) (Err e).
Proof.
  unfold equal. rewrite !observe_Err. change (read_value (Err e))
    with (util.get e trait_value).
  by rewrite observe_get, get_get.
Qed.

(** Equal values are of the same class and are read alike, so that no
    method tells them apart; values that are read differently are not
    equal. *)
Lemma equal_Option_inv (x y : Option) :
  equal x y →
  isSome x = isSome y ∧ equal (read_value x) (read_value y).
Proof.
  unfold equal. destruct x as [v|], y as [w|]; try done.
  intros [= H]. split; [done|].
  change (read_value (SomeClass v)) with (util.get v trait_value).
  change (read_value (SomeClass w)) with (util.get w trait_value).
  change (observe_with observe_Object) with observe in H.
  by rewrite !observe_get.
Qed.

Lemma equal_Result_inv (r s : Result) :
  equal r s →
  isOk r = isOk s ∧ equal (read_value r) (read_value s).
Proof.
  unfold equal. destruct r as [v|v], s as [w|w]; try done;
    intros [= H]; (split; [done|]);
    change (observe_with observe_Object) with observe in H.
  - change (observe (util.get v trait_value)
            = observe (util.get w trait_value)).
    by rewrite !observe_get.
  - change (observe (util.get v trait_value)
            = observe (util.get w trait_value)).
    by rewrite !observe_get.
Qed.

Lemma equal_distinguishes :
  equal (Some null) (Some undefined)
  ∧ ¬ equal None (Some undefined)
  ∧ ¬ equal (Some (number 1)) (Some (number 2))
  ∧ ¬ equal (Ok (number 1)) (Err (number 1))
  ∧ ¬ equal (null : value) undefined.
Proof. repeat split; discriminate. Qed.

End Observed.

(** ** Discriminators *)

(** C3.  For every [Option], exactly one of [isSome()] and [isNone()] is
    true, and for every [Result], exactly one of [isOk()] and [isErr()]. *)
Theorem discriminators_exclusive :
  (∀ x : Option,
      (isSome x = true ∧ isNone x = false)
      ∨ (isSome x = false ∧ isNone x = true))
  ∧ (∀ r : Result,
        (isOk r = true ∧ isErr r = false)
        ∨ (isOk r = false ∧ isErr r = true)).
Proof.
  split.
  - intros [v|]; [left | right]; split; reflexivity.
  - intros [v|e]; [left | right]; split; reflexivity.
Qed.

(** ** [andThen] *)

(** C2.  [x.andThen(f).andThen(g)] equals
    [x.andThen(v => f(v).andThen(g))], for [Option] and for [Result]. *)
Theorem andThen_assoc :
  (∀ (x : Option) (f g : value → Option),
      OptionImpl.andThen (OptionImpl.andThen x f) g
      = OptionImpl.andThen x (λ v, OptionImpl.andThen (f v) g))
  ∧ (∀ (x : Result) (f g : value → Result),
        ResultImpl.andThen (ResultImpl.andThen x f) g
        = ResultImpl.andThen x (λ v, ResultImpl.andThen (f v) g)).
Proof.
  split; intros x f g.
  - destruct x as [v|]; reflexivity.
  - destruct x as [v|e]; reflexivity.
Qed.

(** Binding with [Some] rebuilds the receiver from what the proxy reads,
    so it is the identity on every payload that is read back unchanged. *)
Lemma andThen_Some_not_null (x : Option) :
  x ≠ Some null → OptionImpl.andThen x Some = x.
Proof.
  destruct x as [v|]; [|done]. intros Hx.
  unfold OptionImpl.andThen; simpl.
  rewrite read_value_Some_not_null; [done | by intros ->].
Qed.


(** ** [flatten] and [xor] *)

(** C8.  [flatten] removes one level of nesting: [Some(Some(v))] gives
    [Some(v)], [Some(None)] and [None] give [None];
    [Some(Some(Some(6)))] gives [Some(Some(6))], and [Some(6)] when
    flattened twice. *)
Theorem flatten_one_level :
  (∀ v : value, OptionImpl.flatten (Some (Some v)) = Some v)
  ∧ OptionImpl.flatten (Some None) = None
  ∧ OptionImpl.flatten None = None
  ∧ OptionImpl.flatten (Some (Some (Some (number 6))))
    = Some (Some (number 6))
  ∧ flatten_twice (Some (Some (Some (number 6))))
    = normal (Option_value (Some (number 6))).
Proof. repeat split. Qed.

(** C9.  [x.xor(optb)] is the one of the two that is a [Some] when
    exactly one is, and [None] otherwise, whatever the payloads. *)
Theorem xor_truth_table :
  (∀ x optb : Option,
      OptionImpl.xor x optb
      = match isSome x, isSome optb with
        | true, false => x
        | false, true => optb
        | _, _ => None
        end)
  ∧ (∀ v w : value, OptionImpl.xor (Some v) (Some w) = None)
  ∧ OptionImpl.xor None None = None
  ∧ OptionImpl.xor (Some (number 2)) (Some (number 2)) = None
  ∧ OptionImpl.xor (Some (number 2)) None = Some (number 2).
Proof.
  repeat split. intros [v|] [w|]; reflexivity.
Qed.

(** ** Transposition *)

Section Transpose.

Lemma Option_transpose_None :
  OptionImpl.transpose None = normal (Ok None).
Proof. reflexivity. Qed.

Lemma Option_transpose_Some_Ok (v : value) :
  v ≠ null →
  OptionImpl.transpose (Some (Ok v)) = normal (Ok (Some v)).
Proof.
  intros Hv. unfold OptionImpl.transpose; simpl.
  by rewrite (read_value_Ok_not_null v Hv).
Qed.

Lemma Option_transpose_Some_Err (e : value) :
  e ≠ null →
  OptionImpl.transpose (Some (Err e)) = normal (Err e).
Proof.
  intros He. unfold OptionImpl.transpose; simpl.
  by rewrite (read_value_Err_not_null e He).
Qed.

Lemma Result_transpose_Ok_None :
  ResultImpl.transpose (Ok None) = normal None.
Proof. reflexivity. Qed.

Lemma Result_transpose_Ok_Some (v : value) :
  v ≠ null →
  ResultImpl.transpose (Ok (Some v)) = normal (Some (Ok v)).
Proof.
  intros Hv. unfold ResultImpl.transpose; simpl.
  by rewrite (read_value_Some_not_null v Hv).
Qed.

Lemma Result_transpose_Err (e : value) :
  e ≠ null →
  ResultImpl.transpose (Err e) = normal (Some (Err e)).
Proof.
  intros He. unfold ResultImpl.transpose; simpl.
  by rewrite (read_value_Err_not_null e He).
Qed.

(** The payload of a [Some] must be a [Result]: otherwise
    [this.value.isOk] is not a function. *)
Lemma Option_transpose_not_a_Result :
  OptionImpl.transpose (Some (number 5)) = TypeError.
Proof. reflexivity. Qed.

(** Away from [null] payloads the two transpositions are inverse. *)
Lemma transpose_roundtrip_not_null :
  transpose_roundtrip None = normal None
  ∧ (∀ v, v ≠ null →
          transpose_roundtrip (Some (Ok v)) = normal (Some (Ok v)))
  ∧ (∀ e, e ≠ null →
          transpose_roundtrip (Some (Err e)) = normal (Some (Err e))).
Proof.
  split; [reflexivity | split].
  - intros v Hv. unfold transpose_roundtrip.
    rewrite (Option_transpose_Some_Ok v Hv); simpl.
    exact (Result_transpose_Ok_Some v Hv).
  - intros e He. unfold transpose_roundtrip.
    rewrite (Option_transpose_Some_Err e He); simpl.
    exact (Result_transpose_Err e He).
Qed.

End Transpose.


(** ** Fallbacks of [Result] *)

Section ResultFallbacks.

Variables (v e : value) (f defFn : value → value).

Lemma Result_unwrapOrElse_Ok :
  v ≠ null → ResultImpl.unwrapOrElse (Ok v) f = v.
Proof. apply read_value_Ok_not_null. Qed.

Lemma Result_unwrapOrElse_Err :
  e ≠ null → ResultImpl.unwrapOrElse (Err e) f = f e.
Proof.
  intros He. unfold ResultImpl.unwrapOrElse; simpl.
  by rewrite (read_value_Err_not_null e He).
Qed.

Lemma Result_mapOrElse_Ok :
  v ≠ null → ResultImpl.mapOrElse (Ok v) defFn f = f v.
Proof.
  intros Hv. unfold ResultImpl.mapOrElse; simpl.
  by rewrite (read_value_Ok_not_null v Hv).
Qed.

Lemma Result_mapOrElse_Err :
  e ≠ null → ResultImpl.mapOrElse (Err e) defFn f = defFn e.
Proof.
  intros He. unfold ResultImpl.mapOrElse; simpl.
  by rewrite (read_value_Err_not_null e He).
Qed.

End ResultFallbacks.

(** C4.  [Ok(null).unwrapOrElse(f)] is [undefined], and on [Err(null)]
    the fallbacks of [unwrapOrElse] and [mapOrElse] are applied to
    [undefined], not to the error [null]. *)
Theorem Result_fallbacks_null :
  (∀ f, ResultImpl.unwrapOrElse (Ok null) f = undefined)
  ∧ (∀ f, ResultImpl.unwrapOrElse (Err null) f = f undefined)
  ∧ (∀ defFn f, ResultImpl.mapOrElse (Ok null) defFn f = f undefined)
  ∧ (∀ defFn f, ResultImpl.mapOrElse (Err null) defFn f = defFn undefined)
  ∧ ResultImpl.unwrapOrElse (Ok null) (λ _, number 0) ≠ null
  ∧ ResultImpl.unwrapOrElse (Err null) (λ e, object (array [e]))
    ≠ object (array [null]).
Proof. repeat split; discriminate. Qed.

(** ** Lazy callbacks of [Option] *)

(** A callback that the receiver makes unnecessary is not applied: the
    result is the same for every callback. *)
Lemma Option_lazy_callbacks_unused (v : value) :
  (∀ f g, OptionImpl.unwrapOrElse (Some v) f
          = OptionImpl.unwrapOrElse (Some v) g)
  ∧ (∀ f, OptionImpl.orElse (Some v) f = Some v)
  ∧ (∀ f, OptionImpl.andThen None f = None).
Proof. repeat split. Qed.

Lemma Option_unwrapOrElse_Some (v : value) (f : unit → value) :
  v ≠ null → OptionImpl.unwrapOrElse (Some v) f = v.
Proof. apply read_value_Some_not_null. Qed.

(** C5.  [Some(null).unwrapOrElse(f)] is [undefined] for every [f], not
    the payload [null]. *)
Theorem Option_unwrapOrElse_null :
  (∀ f, OptionImpl.unwrapOrElse (Some null) f = undefined)
  ∧ (∀ f, OptionImpl.unwrapOrElse (Some null) f ≠ null).
Proof. split; intros f; [reflexivity | discriminate]. Qed.

(** ** From [Option] to [Result] *)

Section OkOr.

Variables (err : value) (errFn : unit → value).

Lemma okOr_Some (v : value) :
  v ≠ null → OptionImpl.okOr (Some v) err = Ok v.
Proof.
  intros Hv. unfold OptionImpl.okOr; simpl.
  by rewrite (read_value_Some_not_null v Hv).
Qed.

Lemma okOrElse_Some (v : value) :
  v ≠ null → OptionImpl.okOrElse (Some v) errFn = Ok v.
Proof.
  intros Hv. unfold OptionImpl.okOrElse; simpl.
  by rewrite (read_value_Some_not_null v Hv).
Qed.

Lemma okOr_None : OptionImpl.okOr None err = Err err.
Proof. reflexivity. Qed.

Lemma okOrElse_None : OptionImpl.okOrElse None errFn = Err (errFn tt).
Proof. reflexivity. Qed.

(** The result is an [Err] exactly when the receiver is [None]. *)
Lemma okOr_isErr (x : Option) :
  isErr (OptionImpl.okOr x err) = isNone x
  ∧ isErr (OptionImpl.okOrElse x errFn) = isNone x.
Proof. by destruct x. Qed.

End OkOr.


End ValueLayer.

(** * Properties of the store layer *)

(** ** Computations that only allocate *)

Section Extending.
Import Store.

Lemma extending_ret {A : Type} (a : A) : extending (mret a).
Proof. intros σ. reflexivity. Qed.

Lemma extending_throw {A : Type} : extending (@throw A).
Proof. intros σ. reflexivity. Qed.

Lemma extending_bind {A B : Type} (m : M A) (k : A → M B) :
  extending m → (∀ a, extending (k a)) → extending (m ≫= k).
Proof.
  intros Hm Hk σ. specialize (Hm σ).
  unfold mbind, M_bind. destruct (m σ) as [[a|] σ']; simpl in *.
  - etrans; [exact Hm | apply Hk].
  - exact Hm.
Qed.

Lemma extending_new (o : instance) : extending (new o).
Proof. intros σ. simpl. by apply prefix_app_r. Qed.

Lemma extending_load (v : value) : extending (load v).
Proof.
  intros σ. unfold load.
  destruct v as [| | | | |l]; try reflexivity.
  destruct (σ !! l); reflexivity.
Qed.

Lemma extending_if {A : Type} (b : bool) (m1 m2 : M A) :
  extending m1 → extending m2 → extending (if b then m1 else m2).
Proof. by destruct b. Qed.

(** [assign] is the one primitive that is not extending. *)
Lemma assign_not_extending :
  ¬ extending (assign 0 (SomeClass null)).
Proof.
  intros H. specialize (H [NoneClass]). simpl in H.
  destruct H as [k Hk]. discriminate.
Qed.

End Extending.

Section ExtendingMethods.
Import Store.

Lemma extending_and_also (a b : M bool) :
  extending a → extending b → extending (and_also a b).
Proof.
  intros Ha Hb. apply extending_bind; [exact Ha | intros x].
  apply extending_if; [exact Hb | apply extending_ret].
Qed.

Lemma extending_get_value (v : value) : extending (get_value v).
Proof.
  destruct v; simpl;
    try apply extending_ret; try apply extending_throw.
  apply extending_bind; [apply extending_load | intros i].
  apply extending_ret.
Qed.

(** A discriminator loads the receiver and answers by its class. *)
Lemma extending_discriminator (v : value) (k : instance → M bool) :
  (∀ o, k o = mret true ∨ k o = mret false ∨ k o = throw) →
  extending (load v ≫= k).
Proof.
  intros Hk. apply extending_bind; [apply extending_load | intros o].
  destruct (Hk o) as [-> | [-> | ->]];
    auto using extending_ret, extending_throw.
Qed.

Lemma extending_isSome (v : value) : extending (option.isSome v).
Proof. apply extending_discriminator. intros []; auto. Qed.

Lemma extending_isNone (v : value) : extending (option.isNone v).
Proof. apply extending_discriminator. intros []; auto. Qed.

Lemma extending_isOk (v : value) : extending (result.isOk v).
Proof. apply extending_discriminator. intros []; auto. Qed.

Lemma extending_isErr (v : value) : extending (result.isErr v).
Proof. apply extending_discriminator. intros []; auto. Qed.

Lemma extending_Some (v : value) : extending (option.Some v).
Proof. apply extending_new. Qed.

Lemma extending_Ok (v : value) : extending (result.Ok v).
Proof. apply extending_new. Qed.

Lemma extending_Err (v : value) : extending (result.Err v).
Proof. apply extending_new. Qed.

End ExtendingMethods.

Create HintDb extending.

#[local] Hint Resolve extending_ret extending_throw extending_new
  extending_load extending_get_value extending_isSome extending_isNone
  extending_isOk extending_isErr extending_Some extending_Ok extending_Err
  : extending.

(** Splits a computation along its binds and branches; the leaves are
    primitives of the layer or callbacks. *)
Ltac extending_step :=
  match goal with
  | |- Store.extending (Store.and_also _ _) => apply extending_and_also
  | |- Store.extending (_ ≫= _) => apply extending_bind; [|intros ?]
  | |- Store.extending (if _ then _ else _) => apply extending_if
  | H : ∀ v, Store.extending (?f v) |- Store.extending (?f _) => apply H
  | H : Store.extending ?m |- Store.extending ?m => exact H
  | |- Store.extending _ => solve [auto with extending]
  end.

Ltac unfold_method :=
  cbv beta delta
    [Store.OptionImpl.unwrapOr Store.OptionImpl.unwrapOrElse
     Store.OptionImpl.map Store.OptionImpl.mapOr
     Store.OptionImpl.mapOrElse Store.OptionImpl.okOr
     Store.OptionImpl.okOrElse Store.OptionImpl.and
     Store.OptionImpl.andThen Store.OptionImpl.filter
     Store.OptionImpl.or Store.OptionImpl.orElse Store.OptionImpl.xor
     Store.OptionImpl.zip Store.OptionImpl.transpose
     Store.OptionImpl.flatten
     Store.ResultImpl.ok Store.ResultImpl.err Store.ResultImpl.map
     Store.ResultImpl.mapOr Store.ResultImpl.mapOrElse
     Store.ResultImpl.mapErr Store.ResultImpl.and
     Store.ResultImpl.andThen Store.ResultImpl.or
     Store.ResultImpl.orElse Store.ResultImpl.unwrapOr
     Store.ResultImpl.unwrapOrElse Store.ResultImpl.transpose].

(** Every method, run with callbacks that only allocate, only
    allocates. *)
Lemma invoke_extending (m : Store.method) (this : Store.value) :
  Store.callbacks_extending m → Store.extending (Store.invoke m this).
Proof.
  destruct m; simpl; intros Hcb;
    repeat match goal with H : _ ∧ _ |- _ => destruct H end;
    unfold_method; repeat extending_step.
Qed.

(** ** Lazy callbacks

    A callback that the receiver makes unnecessary is not run: whatever
    it would do, also to the store, the call completes with the same
    result and leaves the store as it is. *)

Section LazyCallbacks.
Import Store.
Context (σ : store) (l : loc).

Lemma unwrapOrElse_Some_callback_not_run (v : value) (f : unit → M value) :
  σ !! l = Some (SomeClass v) →
  OptionImpl.unwrapOrElse (object l) f σ
  = (normal (util.get v trait_value), σ).
Proof.
  intros Hl.
  unfold OptionImpl.unwrapOrElse, option.isSome, get_value, load,
    mbind, M_bind.
  rewrite Hl; simpl. by rewrite Hl.
Qed.

Lemma orElse_Some_callback_not_run (v : value) (f : unit → M value) :
  σ !! l = Some (SomeClass v) →
  OptionImpl.orElse (object l) f σ = (normal (object l), σ).
Proof.
  intros Hl.
  unfold OptionImpl.orElse, option.isSome, load, mbind, M_bind.
  by rewrite Hl.
Qed.

Lemma andThen_None_callback_not_run (f : value → M value) :
  σ !! l = Some NoneClass →
  OptionImpl.andThen (object l) f σ = (normal (object l), σ).
Proof.
  intros Hl.
  unfold OptionImpl.andThen, option.isSome, load, mbind, M_bind.
  by rewrite Hl.
Qed.

End LazyCallbacks.

(** ** Receivers *)

(** C7.  A call of any method of [OptionImpl] or [ResultImpl] leaves its
    receiver as it was, class and payload, and likewise every other
    object of the store: all it does to the store is allocate, and what
    it computes it returns.  The callbacks are the caller's code and are
    taken not to write to objects that exist; a callback that does is
    seen in the store ([writing_callback_changes_receiver]). *)
Theorem methods_do_not_mutate
  (m : Store.method) (l : Store.loc) (σ : Store.store) :
  Store.callbacks_extending m →
  Store.receiver_unchanged m l σ
  ∧ σ `prefix_of` (Store.invoke m (object l) σ).2.
Proof.
  intros Hcb.
  pose proof (invoke_extending m (object l) Hcb σ) as Hext.
  split; [|exact Hext].
  intros o Ho. by eapply prefix_lookup_Some.
Qed.

(** Witness: [Some(2).andThen(v => Some(v))], whose callback allocates,
    in the store that holds [None] and that [Some(2)]. *)
Lemma methods_do_not_mutate_witness :
  let σ := [Store.NoneClass; Store.SomeClass (number 2)] in
  let m := Store.Option_andThen Store.option.Some in
  Store.callbacks_extending m
  ∧ (Store.invoke m (object 1) σ).2 !! 1
    = Some (Store.SomeClass (number 2))
  ∧ σ `prefix_of` (Store.invoke m (object 1) σ).2.
Proof.
  intros σ m.
  assert (Store.callbacks_extending m) as Hcb.
  { intros v τ. simpl. by apply prefix_app_r. }
  split; [exact Hcb|].
  destruct (methods_do_not_mutate m 1 σ Hcb) as [H1 H2].
  split; [exact (H1 _ eq_refl) | exact H2].
Defined.

(** * The store layer refines the value layer *)

Section Represents.

Lemma represents_mono (σ σ' : Store.store) (v : Store.value) (p : value) :
  σ `prefix_of` σ' → represents σ v p → represents σ' v p.
Proof.
  intros Hext H.
  induction H using represents_mut
    with (P0 := λ vs ps _, represents_all σ' vs ps);
    econstructor; eauto using prefix_lookup_Some.
Qed.

(** Related values are nullish together, so the proxy reads related
    values from related fields. *)
Lemma represents_get (σ : Store.store) (v : Store.value) (p : value) :
  represents σ v p →
  represents σ (util.get v trait_value) (util.get p trait_value).
Proof. intros H. destruct H; simpl; econstructor; eauto. Qed.

Lemma represents_loaded_None (σ : Store.store) :
  Store.loaded `prefix_of` σ → represents σ Store.option.None NoneClass.
Proof.
  intros Hσ. apply represents_None.
  by apply (prefix_lookup_Some Store.loaded).
Qed.

(** What a store value that represents an [Option] or a [Result] is. *)
Lemma represents_Option_inv σ (v : Store.value) (x : Option) :
  represents σ v x →
  ∃ l, v = object l ∧
       match x with
       | SomeClass p =>
           ∃ w, σ !! l = Some (Store.SomeClass w) ∧ represents σ w p
       | NoneClass => σ !! l = Some Store.NoneClass
       end.
Proof. inversion 1; subst; eauto. Qed.

Lemma represents_Result_inv σ (v : Store.value) (r : Result) :
  represents σ v r →
  ∃ l, v = object l ∧
       match r with
       | OkClass p =>
           ∃ w, σ !! l = Some (Store.OkClass w) ∧ represents σ w p
       | ErrClass p =>
           ∃ w, σ !! l = Some (Store.ErrClass w) ∧ represents σ w p
       end.
Proof. inversion 1; subst; eauto. Qed.

End Represents.

(** ** Rules for [simulates] *)

Section Simulates.
Context {A B C D : Type}.
Context (R : Store.store → A → B → Prop) (S : Store.store → C → D → Prop).

Lemma simulates_ret σ (a : A) (b : B) :
  R σ a b → simulates R (mret a) (normal b) σ.
Proof. intros H. by exists a, σ. Qed.

Lemma simulates_throw σ : simulates R Store.throw TypeError σ.
Proof. by exists σ. Qed.

(** After a step that completes normally, the rest runs in an extension
    of the store. *)
Lemma simulates_bind σ (m : Store.M A) (b : B) (k : A → Store.M C)
  (c : completion D) :
  simulates R m (normal b) σ →
  (∀ a σ', σ `prefix_of` σ' → R σ' a b → simulates S (k a) c σ') →
  simulates S (m ≫= k) c σ.
Proof.
  intros (a & σ1 & Hm & Hext & Hab) Hk.
  specialize (Hk a σ1 Hext Hab).
  unfold simulates, mbind, Store.M_bind in *. rewrite Hm.
  destruct c as [d|].
  - destruct Hk as (r & σ2 & Hr & Hext2 & Hrd).
    exists r, σ2. split; [done|]. split; [by etrans | done].
  - destruct Hk as (σ2 & Hr & Hext2).
    exists σ2. split; [done | by etrans].
Qed.

Lemma simulates_bind_throw σ (m : Store.M A) (k : A → Store.M C) :
  simulates R m (@TypeError B) σ →
  simulates S (m ≫= k) (@TypeError D) σ.
Proof.
  intros (σ1 & Hm & Hext). exists σ1.
  unfold mbind, Store.M_bind. by rewrite Hm.
Qed.

End Simulates.

(** ** The primitives *)

Section Primitives.
Context (σ : Store.store).

Lemma simulates_isSome (this : Store.value) (x : Option) :
  represents σ this x →
  simulates same_bool (Store.option.isSome this) (normal (option.isSome x)) σ.
Proof.
  intros (l & -> & H)%represents_Option_inv. exists (option.isSome x), σ.
  unfold Store.option.isSome, Store.load, mbind, Store.M_bind.
  destruct x as [p|]; [destruct H as (w & -> & _) | rewrite H]; done.
Qed.

Lemma simulates_isNone (this : Store.value) (x : Option) :
  represents σ this x →
  simulates same_bool (Store.option.isNone this) (normal (option.isNone x)) σ.
Proof.
  intros (l & -> & H)%represents_Option_inv. exists (option.isNone x), σ.
  unfold Store.option.isNone, Store.load, mbind, Store.M_bind.
  destruct x as [p|]; [destruct H as (w & -> & _) | rewrite H]; done.
Qed.

Lemma simulates_isOk (this : Store.value) (r : Result) :
  represents σ this r →
  simulates same_bool (Store.result.isOk this) (normal (result.isOk r)) σ.
Proof.
  intros (l & -> & H)%represents_Result_inv. exists (result.isOk r), σ.
  unfold Store.result.isOk, Store.load, mbind, Store.M_bind.
  destruct r as [p|p]; destruct H as (w & -> & _); done.
Qed.

Lemma simulates_isErr (this : Store.value) (r : Result) :
  represents σ this r →
  simulates same_bool (Store.result.isErr this) (normal (result.isErr r)) σ.
Proof.
  intros (l & -> & H)%represents_Result_inv. exists (result.isErr r), σ.
  unfold Store.result.isErr, Store.load, mbind, Store.M_bind.
  destruct r as [p|p]; destruct H as (w & -> & _); done.
Qed.

(** A discriminator is not a method of a value of another kind. *)
Lemma simulates_isOk_throw (v : Store.value) (p : value) :
  represents σ v p → as_Result p = TypeError →
  simulates same_bool (Store.result.isOk v) (@TypeError bool) σ.
Proof.
  intros H Hp. exists σ. split; [|done].
  unfold Store.result.isOk, Store.load, mbind, Store.M_bind.
  destruct H as [| | | | |l w q Hl _|l Hl|l w q Hl _|l w q Hl _|l vs ps Hl _];
    try done; by rewrite Hl.
Qed.

Lemma simulates_isSome_throw (v : Store.value) (p : value) :
  represents σ v p → as_Option p = TypeError →
  simulates same_bool (Store.option.isSome v) (@TypeError bool) σ.
Proof.
  intros H Hp. exists σ. split; [|done].
  unfold Store.option.isSome, Store.load, mbind, Store.M_bind.
  destruct H as [| | | | |l w q Hl _|l Hl|l w q Hl _|l w q Hl _|l vs ps Hl _];
    try done; by rewrite Hl.
Qed.

Lemma simulates_get_value_Option (this : Store.value) (x : Option) :
  represents σ this x →
  simulates represents (Store.get_value this) (normal (read_value x)) σ.
Proof.
  intros (l & -> & H)%represents_Option_inv.
  unfold simulates, Store.get_value, Store.load, mbind, Store.M_bind.
  destruct x as [p|].
  - destruct H as (w & Hl & Hw). rewrite Hl.
    eexists _, σ. split; [done|]. split; [done|].
    by apply represents_get.
  - rewrite H. eexists _, σ. split; [done|]. split; [done|]. constructor.
Qed.

Lemma simulates_get_value_Result (this : Store.value) (r : Result) :
  represents σ this r →
  simulates represents (Store.get_value this) (normal (read_value r)) σ.
Proof.
  intros (l & -> & H)%represents_Result_inv.
  unfold simulates, Store.get_value, Store.load, mbind, Store.M_bind.
  destruct r as [p|p]; destruct H as (w & Hl & Hw); rewrite Hl;
    (eexists _, σ; split; [done|]; split; [done|]);
    by apply represents_get.
Qed.

(** [new] puts the instance at the first free address. *)
Lemma simulates_new (o : Store.instance) (p : value) :
  (∀ σ', σ `prefix_of` σ' → σ' !! List.length σ = Datatypes.Some o →
         represents σ' (object (List.length σ)) p) →
  simulates represents (Store.new o) (normal p) σ.
Proof.
  intros H. eexists _, _. split; [done|].
  split; [by apply prefix_app_r|].
  apply H; [by apply prefix_app_r|]. apply list_lookup_middle. done.
Qed.

Lemma simulates_Some (v : Store.value) (p : value) :
  represents σ v p →
  simulates represents (Store.option.Some v) (normal (option.Some p : value)) σ.
Proof.
  intros H. apply simulates_new. intros σ' Hext Hl.
  eapply represents_Some; eauto using represents_mono.
Qed.

Lemma simulates_Ok (v : Store.value) (p : value) :
  represents σ v p →
  simulates represents (Store.result.Ok v) (normal (result.Ok p : value)) σ.
Proof.
  intros H. apply simulates_new. intros σ' Hext Hl.
  eapply represents_Ok; eauto using represents_mono.
Qed.

Lemma simulates_Err (v : Store.value) (p : value) :
  represents σ v p →
  simulates represents (Store.result.Err v) (normal (result.Err p : value)) σ.
Proof.
  intros H. apply simulates_new. intros σ' Hext Hl.
  eapply represents_Err; eauto using represents_mono.
Qed.

End Primitives.

Lemma as_Result_normal (p : value) (r : Result) :
  as_Result p = normal r → p = r.
Proof. destruct p as [| | | | |[]]; try done. by intros [= ->]. Qed.

Lemma as_Option_normal (p : value) (o : Option) :
  as_Option p = normal o → p = o.
Proof. destruct p as [| | | | |[]]; try done. by intros [= ->]. Qed.

(** ** The methods *)

(** Moves the hypotheses to the store reached by the last step. *)
Ltac advance :=
  repeat match goal with
    | H : same_bool _ _ _ |- _ => red in H; subst
    | Hext : ?σ `prefix_of` ?σ1, H : represents ?σ _ _ |- _ =>
        apply (represents_mono σ σ1 _ _ Hext) in H
    | Hext : ?σ `prefix_of` ?σ1, H : Store.loaded `prefix_of` ?σ |- _ =>
        apply (λ H0, transitivity H0 Hext) in H
    end;
  repeat match goal with
    | Hext : _ `prefix_of` _ |- _ =>
        lazymatch type of Hext with
        | Store.loaded `prefix_of` _ => fail
        | _ => clear Hext
        end
    end.

(** One primitive, constructor or callback. *)
Ltac sim_leaf :=
  first
    [ eapply simulates_ret; solve [eauto using represents_loaded_None]
    | eapply simulates_ret; reflexivity
    | eapply simulates_get_value_Option; solve [eauto]
    | eapply simulates_get_value_Result; solve [eauto]
    | eapply simulates_isSome; solve [eauto]
    | eapply simulates_isNone; solve [eauto]
    | eapply simulates_isOk; solve [eauto]
    | eapply simulates_isErr; solve [eauto]
    | eapply simulates_Some; solve [eauto]
    | eapply simulates_Ok; solve [eauto]
    | eapply simulates_Err; solve [eauto]
    | match goal with
      | H : callback_simulates _ ?f _ |- simulates _ (?f _) _ _ =>
          eapply H; solve [eauto]
      | H : thunk_simulates _ ?f _ |- simulates _ (?f tt) _ _ =>
          eapply H; solve [eauto]
      end ].

Ltac sim_step :=
  first
    [ sim_leaf
    | eapply simulates_bind; [sim_leaf | intros ? ? ? ?; advance] ].

Section Methods.
Context (σ : Store.store) (this : Store.value).
Context (Hloaded : Store.loaded `prefix_of` σ).

Section OptionMethods.
Context (x : Option) (Hthis : represents σ this x).

Lemma simulates_Option_unwrapOr def d :
  represents σ def d →
  simulates represents (Store.OptionImpl.unwrapOr this def)
    (normal (OptionImpl.unwrapOr x d)) σ.
Proof.
  intros Hd. unfold Store.OptionImpl.unwrapOr, OptionImpl.unwrapOr.
  sim_step. destruct (option.isSome x); sim_step.
Qed.

Lemma simulates_Option_unwrapOrElse f g :
  thunk_simulates represents f g →
  simulates represents (Store.OptionImpl.unwrapOrElse this f)
    (normal (OptionImpl.unwrapOrElse x g)) σ.
Proof.
  intros Hf. unfold Store.OptionImpl.unwrapOrElse, OptionImpl.unwrapOrElse.
  sim_step. destruct (option.isSome x); sim_step.
Qed.

Lemma simulates_Option_map f g :
  callback_simulates represents f g →
  simulates represents (Store.OptionImpl.map this f)
    (normal (OptionImpl.map x g : value)) σ.
Proof.
  intros Hf. unfold Store.OptionImpl.map, OptionImpl.map.
  sim_step. destruct (option.isSome x); repeat sim_step.
Qed.

Lemma simulates_Option_mapOr def d f g :
  represents σ def d →
  callback_simulates represents f g →
  simulates represents (Store.OptionImpl.mapOr this def f)
    (normal (OptionImpl.mapOr x d g)) σ.
Proof.
  intros Hd Hf. unfold Store.OptionImpl.mapOr, OptionImpl.mapOr.
  sim_step. destruct (option.isSome x); repeat sim_step.
Qed.

Lemma simulates_Option_mapOrElse def d f g :
  thunk_simulates represents def d →
  callback_simulates represents f g →
  simulates represents (Store.OptionImpl.mapOrElse this def f)
    (normal (OptionImpl.mapOrElse x d g)) σ.
Proof.
  intros Hd Hf. unfold Store.OptionImpl.mapOrElse, OptionImpl.mapOrElse.
  sim_step. destruct (option.isSome x); repeat sim_step.
Qed.

Lemma simulates_Option_okOr err e :
  represents σ err e →
  simulates represents (Store.OptionImpl.okOr this err)
    (normal (OptionImpl.okOr x e : value)) σ.
Proof.
  intros He. unfold Store.OptionImpl.okOr, OptionImpl.okOr.
  sim_step. destruct (option.isSome x); repeat sim_step.
Qed.

Lemma simulates_Option_okOrElse err e :
  thunk_simulates represents err e →
  simulates represents (Store.OptionImpl.okOrElse this err)
    (normal (OptionImpl.okOrElse x e : value)) σ.
Proof.
  intros He. unfold Store.OptionImpl.okOrElse, OptionImpl.okOrElse.
  sim_step. destruct (option.isSome x); repeat sim_step.
Qed.

Lemma simulates_Option_and optb (y : Option) :
  represents σ optb y →
  simulates represents (Store.OptionImpl.and this optb)
    (normal (OptionImpl.and x y : value)) σ.
Proof.
  intros Hy. unfold Store.OptionImpl.and, OptionImpl.and.
  sim_step. destruct (option.isSome x); sim_step.
Qed.

Lemma simulates_Option_andThen f (g : value → Option) :
  callback_simulates represents f (λ p, g p : value) →
  simulates represents (Store.OptionImpl.andThen this f)
    (normal (OptionImpl.andThen x g : value)) σ.
Proof.
  intros Hf. unfold Store.OptionImpl.andThen, OptionImpl.andThen.
  sim_step. destruct (option.isSome x); repeat sim_step.
Qed.

Lemma simulates_Option_filter predicate q :
  callback_simulates same_bool predicate q →
  simulates represents (Store.OptionImpl.filter this predicate)
    (normal (OptionImpl.filter x q : value)) σ.
Proof.
  intros Hq.
  unfold Store.OptionImpl.filter, OptionImpl.filter, Store.and_also.
  eapply simulates_bind with (R := same_bool)
    (b := option.isSome x && q (read_value x)).
  - sim_step. destruct (option.isSome x); cbn [andb]; repeat sim_step.
  - intros ? ? ? ?; advance.
    destruct (option.isSome x && q (read_value x)); sim_step.
Qed.

Lemma simulates_Option_or optb (y : Option) :
  represents σ optb y →
  simulates represents (Store.OptionImpl.or this optb)
    (normal (OptionImpl.or x y : value)) σ.
Proof.
  intros Hy. unfold Store.OptionImpl.or, OptionImpl.or.
  sim_step. destruct (option.isSome x); sim_step.
Qed.

Lemma simulates_Option_orElse f (g : unit → Option) :
  thunk_simulates represents f (λ u, g u : value) →
  simulates represents (Store.OptionImpl.orElse this f)
    (normal (OptionImpl.orElse x g : value)) σ.
Proof.
  intros Hf. unfold Store.OptionImpl.orElse, OptionImpl.orElse.
  sim_step. destruct (option.isSome x); repeat sim_step.
Qed.

(** [a && b] on computations against [&&] on booleans. *)
Lemma simulates_and_also σ0 (a b : Store.M bool) (a' b' : bool) :
  simulates same_bool a (normal a') σ0 →
  (∀ σ1, σ0 `prefix_of` σ1 → a' = true →
         simulates same_bool b (normal b') σ1) →
  simulates same_bool (Store.and_also a b) (normal (a' && b')) σ0.
Proof.
  intros Ha Hb. unfold Store.and_also.
  eapply simulates_bind; [exact Ha | intros ? σ1 Hext ->].
  destruct a'; cbn [andb]; [by apply Hb | by apply simulates_ret].
Qed.

Lemma simulates_Option_xor optb (y : Option) :
  represents σ optb y →
  simulates represents (Store.OptionImpl.xor this optb)
    (normal (OptionImpl.xor x y : value)) σ.
Proof.
  intros Hy. unfold Store.OptionImpl.xor, OptionImpl.xor.
  eapply simulates_bind.
  { apply simulates_and_also; [sim_step | intros; advance; sim_step]. }
  intros ? ? ? ?; advance.
  destruct (option.isSome x && option.isNone y); [sim_step|].
  eapply simulates_bind.
  { apply simulates_and_also; [sim_step | intros; advance; sim_step]. }
  intros ? ? ? ?; advance.
  destruct (option.isNone x && option.isSome y); sim_step.
Qed.

Lemma simulates_Option_zip other (y : Option) :
  represents σ other y →
  simulates represents (Store.OptionImpl.zip this other)
    (normal (OptionImpl.zip x y : value)) σ.
Proof.
  intros Hy. unfold Store.OptionImpl.zip, OptionImpl.zip.
  eapply simulates_bind.
  { apply simulates_and_also; [sim_step | intros; advance; sim_step]. }
  intros ? ? ? ?; advance.
  destruct (option.isSome x && option.isSome y); [|sim_step].
  do 2 sim_step.
  eapply simulates_bind; [|intros ? ? ? ?; advance; sim_step].
  apply simulates_new. intros τ Hτ Hl.
  eapply represents_array; [exact Hl|].
  repeat constructor; eauto using represents_mono.
Qed.

Lemma simulates_Option_transpose :
  simulates represents (Store.OptionImpl.transpose this)
    (Result_value <$> OptionImpl.transpose x) σ.
Proof.
  unfold Store.OptionImpl.transpose, OptionImpl.transpose.
  sim_step. destruct (option.isSome x).
  2: { apply (simulates_Ok _ _ option.None).
       by apply represents_loaded_None. }
  sim_step.
  destruct (as_Result (read_value x)) as [r|] eqn:Hr.
  - apply as_Result_normal in Hr.
    change (simulates represents ?m _ ?s)
      with (simulates represents m
              (normal (Result_value
                         (if result.isOk r
                          then result.Ok (option.Some (read_value r))
                          else result.Err (read_value r)))) s).
    rewrite Hr in *.
    sim_step. destruct (result.isOk r).
    + sim_step. rewrite Hr in *. repeat sim_step.
    + sim_step. rewrite Hr in *. repeat sim_step.
  - eapply simulates_bind_throw, simulates_isOk_throw; eauto.
Qed.

Lemma simulates_Option_flatten :
  simulates represents (Store.OptionImpl.flatten this)
    (normal (OptionImpl.flatten x)) σ.
Proof.
  unfold Store.OptionImpl.flatten, OptionImpl.flatten.
  sim_step. destruct (option.isSome x); sim_step.
Qed.

End OptionMethods.
Section ResultMethods.
Context (x : Result) (Hthis : represents σ this x).

Lemma simulates_Result_ok :
  simulates represents (Store.ResultImpl.ok this)
    (normal (ResultImpl.ok x : value)) σ.
Proof.
  unfold Store.ResultImpl.ok, ResultImpl.ok.
  sim_step. destruct (result.isOk x); repeat sim_step.
Qed.

Lemma simulates_Result_err :
  simulates represents (Store.ResultImpl.err this)
    (normal (ResultImpl.err x : value)) σ.
Proof.
  unfold Store.ResultImpl.err, ResultImpl.err.
  sim_step. destruct (result.isOk x); repeat sim_step.
Qed.

Lemma simulates_Result_map op g :
  callback_simulates represents op g →
  simulates represents (Store.ResultImpl.map this op)
    (normal (ResultImpl.map x g : value)) σ.
Proof.
  intros Hf. unfold Store.ResultImpl.map, ResultImpl.map.
  sim_step. destruct (result.isOk x); repeat sim_step.
Qed.

Lemma simulates_Result_mapOr def d f g :
  represents σ def d →
  callback_simulates represents f g →
  simulates represents (Store.ResultImpl.mapOr this def f)
    (normal (ResultImpl.mapOr x d g)) σ.
Proof.
  intros Hd Hf. unfold Store.ResultImpl.mapOr, ResultImpl.mapOr.
  sim_step. destruct (result.isOk x); repeat sim_step.
Qed.

Lemma simulates_Result_mapOrElse def d f g :
  callback_simulates represents def d →
  callback_simulates represents f g →
  simulates represents (Store.ResultImpl.mapOrElse this def f)
    (normal (ResultImpl.mapOrElse x d g)) σ.
Proof.
  intros Hd Hf. unfold Store.ResultImpl.mapOrElse, ResultImpl.mapOrElse.
  sim_step. destruct (result.isOk x); repeat sim_step.
Qed.

Lemma simulates_Result_mapErr op g :
  callback_simulates represents op g →
  simulates represents (Store.ResultImpl.mapErr this op)
    (normal (ResultImpl.mapErr x g : value)) σ.
Proof.
  intros Hf. unfold Store.ResultImpl.mapErr, ResultImpl.mapErr.
  sim_step. destruct (result.isOk x); repeat sim_step.
Qed.

Lemma simulates_Result_and res (y : Result) :
  represents σ res y →
  simulates represents (Store.ResultImpl.and this res)
    (normal (ResultImpl.and x y : value)) σ.
Proof.
  intros Hy. unfold Store.ResultImpl.and, ResultImpl.and.
  sim_step. destruct (result.isOk x); sim_step.
Qed.

Lemma simulates_Result_andThen op (g : value → Result) :
  callback_simulates represents op (λ p, g p : value) →
  simulates represents (Store.ResultImpl.andThen this op)
    (normal (ResultImpl.andThen x g : value)) σ.
Proof.
  intros Hf. unfold Store.ResultImpl.andThen, ResultImpl.andThen.
  sim_step. destruct (result.isOk x); repeat sim_step.
Qed.

Lemma simulates_Result_or res (y : Result) :
  represents σ res y →
  simulates represents (Store.ResultImpl.or this res)
    (normal (ResultImpl.or x y : value)) σ.
Proof.
  intros Hy. unfold Store.ResultImpl.or, ResultImpl.or.
  sim_step. destruct (result.isOk x); sim_step.
Qed.

Lemma simulates_Result_orElse op (g : value → Result) :
  callback_simulates represents op (λ p, g p : value) →
  simulates represents (Store.ResultImpl.orElse this op)
    (normal (ResultImpl.orElse x g : value)) σ.
Proof.
  intros Hf. unfold Store.ResultImpl.orElse, ResultImpl.orElse.
  sim_step. destruct (result.isOk x); repeat sim_step.
Qed.

Lemma simulates_Result_unwrapOr def d :
  represents σ def d →
  simulates represents (Store.ResultImpl.unwrapOr this def)
    (normal (ResultImpl.unwrapOr x d)) σ.
Proof.
  intros Hd. unfold Store.ResultImpl.unwrapOr, ResultImpl.unwrapOr.
  sim_step. destruct (result.isOk x); sim_step.
Qed.

Lemma simulates_Result_unwrapOrElse op g :
  callback_simulates represents op g →
  simulates represents (Store.ResultImpl.unwrapOrElse this op)
    (normal (ResultImpl.unwrapOrElse x g)) σ.
Proof.
  intros Hf.
  unfold Store.ResultImpl.unwrapOrElse, ResultImpl.unwrapOrElse.
  sim_step. destruct (result.isOk x); repeat sim_step.
Qed.

Lemma simulates_Result_transpose :
  simulates represents (Store.ResultImpl.transpose this)
    (Option_value <$> ResultImpl.transpose x) σ.
Proof.
  unfold Store.ResultImpl.transpose, ResultImpl.transpose.
  sim_step. destruct (result.isOk x).
  2: { sim_step. sim_step.
       apply (simulates_Some _ _ (result.Err (read_value x))). done. }
  sim_step.
  destruct (as_Option (read_value x)) as [o|] eqn:Ho.
  - apply as_Option_normal in Ho.
    change (simulates represents ?m _ ?s)
      with (simulates represents m
              (normal (Option_value
                         (if option.isSome o
                          then option.Some (result.Ok (read_value o))
                          else option.None))) s).
    rewrite Ho in *.
    sim_step. destruct (option.isSome o); [|sim_step].
    sim_step. rewrite Ho in *. sim_step. sim_step.
    apply (simulates_Some _ _ (result.Ok (read_value o))). done.
  - eapply simulates_bind_throw, simulates_isSome_throw; eauto.
Qed.

End ResultMethods.
End Methods.

(** ** Examples on the loaded store *)

(** The constructor [Some] as a callback, in both layers. *)
Lemma Some_callback_simulates :
  callback_simulates represents Store.option.Some
    (λ p, option.Some p : value).
Proof. intros σ v p _ Hv. by apply simulates_Some. Qed.

(** [Some(2).or(None)] returns the address of its receiver and leaves
    the store as it is. *)
Lemma or_on_the_loaded_store :
  let σ := Store.loaded ++ [Store.SomeClass (number 2)] in
  Store.OptionImpl.or (object 1) Store.option.None σ
  = (normal (object 1), σ).
Proof. reflexivity. Qed.

(** [Some(2).map(f)] allocates its result, whatever [f] returns. *)
Lemma map_on_the_loaded_store :
  let σ := Store.loaded ++ [Store.SomeClass (number 2)] in
  Store.OptionImpl.map (object 1) (λ v, mret v) σ
  = (normal (object 2), σ ++ [Store.SomeClass (number 2)]).
Proof. reflexivity. Qed.

(** A callback that writes to the receiver is seen in the store: the
    condition on callbacks cannot be dropped. *)
Lemma writing_callback_changes_receiver :
  let σ := Store.loaded ++ [Store.SomeClass (number 2)] in
  let f := λ v, Store.assign 1 (Store.SomeClass (number 3)) ≫= λ _, mret v in
  ¬ Store.receiver_unchanged (Store.Option_map f) 1 σ.
Proof.
  intros σ f H. specialize (H _ eq_refl). discriminate.
Qed.

(** * Further properties of the value layer *)

Section Reads.
Import option result.

(** What the proxy reads is never [null], and reading is idempotent: a
    value that was read is stored and read back as it is. *)
Lemma read_value_not_null {T : Type} `{Target Object T} (this : T) :
  read_value this ≠ null.
Proof. unfold read_value. by destruct (own_value this). Qed.

Lemma get_read_value {T : Type} `{Target Object T} (this : T) :
  util.get (read_value this) trait_value = read_value this.
Proof. unfold read_value. by destruct (own_value this). Qed.

Lemma read_value_Some_read {T : Type} `{Target Object T} (this : T) :
  read_value (Some (read_value this)) = read_value this.
Proof. apply get_read_value. Qed.

Lemma read_value_Ok_read {T : Type} `{Target Object T} (this : T) :
  read_value (Ok (read_value this)) = read_value this.
Proof. apply get_read_value. Qed.

Lemma read_value_Err_read {T : Type} `{Target Object T} (this : T) :
  read_value (Err (read_value this)) = read_value this.
Proof. apply get_read_value. Qed.

End Reads.

Section Unwrapping.
Import option result.

(** X1.  [unwrapOr] gives [null] only as the default of a [None] or of an
    [Err]: the payload of a [Some] or of an [Ok] is never returned as
    [null]. *)
Theorem unwrapOr_null_is_the_default :
  (∀ (x : Option) (def : value),
      OptionImpl.unwrapOr x def = null ↔ isNone x = true ∧ def = null)
  ∧ (∀ (r : Result) (def : value),
        ResultImpl.unwrapOr r def = null ↔ isErr r = true ∧ def = null).
Proof.
  split.
  - intros [v|] def; simpl.
    + split; [|intros [Hx _]; discriminate].
      intros Hv. exact (False_ind _ (read_value_not_null (Some v) Hv)).
    + unfold OptionImpl.unwrapOr; simpl.
      split; [by intros -> | by intros [_ ->]].
  - intros [v|e] def; simpl.
    + split; [|intros [Hx _]; discriminate].
      intros Hv. exact (False_ind _ (read_value_not_null (Ok v) Hv)).
    + unfold ResultImpl.unwrapOr; simpl.
      split; [by intros -> | by intros [_ ->]].
Qed.

(** X2.  A callback is applied to what the proxy reads, which is never
    [null]: every method gives the same result when its callback is
    replaced by one that first puts its argument through [?? undefined]. *)
Theorem callbacks_are_applied_to_reads :
  (∀ v : value, util.get v trait_value ≠ null)
  ∧ (∀ (x : Option) (f : value → value) (def : value) (d : unit → value),
        let f' := λ v, f (util.get v trait_value) in
        OptionImpl.map x f = OptionImpl.map x f'
        ∧ OptionImpl.mapOr x def f = OptionImpl.mapOr x def f'
        ∧ OptionImpl.mapOrElse x d f = OptionImpl.mapOrElse x d f')
  ∧ (∀ (x : Option) (f : value → Option) (p : value → bool),
        OptionImpl.andThen x f
        = OptionImpl.andThen x (λ v, f (util.get v trait_value))
        ∧ OptionImpl.filter x p
          = OptionImpl.filter x (λ v, p (util.get v trait_value)))
  ∧ (∀ (r : Result) (f g : value → value) (def : value),
        let f' := λ v, f (util.get v trait_value) in
        let g' := λ v, g (util.get v trait_value) in
        ResultImpl.map r f = ResultImpl.map r f'
        ∧ ResultImpl.mapErr r f = ResultImpl.mapErr r f'
        ∧ ResultImpl.mapOr r def f = ResultImpl.mapOr r def f'
        ∧ ResultImpl.mapOrElse r g f = ResultImpl.mapOrElse r g' f'
        ∧ ResultImpl.unwrapOrElse r f = ResultImpl.unwrapOrElse r f')
  ∧ (∀ (r : Result) (f : value → Result),
        let f' := λ v, f (util.get v trait_value) in
        ResultImpl.andThen r f = ResultImpl.andThen r f'
        ∧ ResultImpl.orElse r f = ResultImpl.orElse r f').
Proof.
  split; [by intros []|].
  split; [|split; [|split]].
  - intros [v|] f def d; simpl; [|done].
    unfold OptionImpl.map, OptionImpl.mapOr, OptionImpl.mapOrElse; simpl.
    by rewrite (get_read_value (Some v)).
  - intros [v|] f p; [|done].
    unfold OptionImpl.andThen, OptionImpl.filter; simpl.
    by rewrite (get_read_value (Some v)).
  - intros [v|e] f g def; simpl;
      unfold ResultImpl.map, ResultImpl.mapErr, ResultImpl.mapOr,
        ResultImpl.mapOrElse, ResultImpl.unwrapOrElse; simpl;
      [by rewrite (get_read_value (Ok v))
      | by rewrite (get_read_value (Err e))].
  - intros [v|e] f; simpl;
      unfold ResultImpl.andThen, ResultImpl.orElse; simpl;
      [by rewrite (get_read_value (Ok v))
      | by rewrite (get_read_value (Err e))].
Qed.

(** X3.  On [Option], a lazy method called with a callback that returns
    a constant does what its eager counterpart does with that
    constant. *)
Theorem Option_lazy_agrees_with_eager (x : Option) :
  (∀ def, OptionImpl.unwrapOrElse x (λ _, def) = OptionImpl.unwrapOr x def)
  ∧ (∀ def f,
        OptionImpl.mapOrElse x (λ _, def) f = OptionImpl.mapOr x def f)
  ∧ (∀ err, OptionImpl.okOrElse x (λ _, err) = OptionImpl.okOr x err)
  ∧ (∀ optb, OptionImpl.orElse x (λ _, optb) = OptionImpl.or x optb)
  ∧ (∀ optb, OptionImpl.andThen x (λ _, optb) = OptionImpl.and x optb).
Proof. by destruct x. Qed.

(** X4.  The same on [Result], where the callback of a lazy method is
    handed the payload. *)
Theorem Result_lazy_agrees_with_eager (r : Result) :
  (∀ def, ResultImpl.unwrapOrElse r (λ _, def) = ResultImpl.unwrapOr r def)
  ∧ (∀ def f,
        ResultImpl.mapOrElse r (λ _, def) f = ResultImpl.mapOr r def f)
  ∧ (∀ res, ResultImpl.orElse r (λ _, res) = ResultImpl.or r res)
  ∧ (∀ res, ResultImpl.andThen r (λ _, res) = ResultImpl.and r res).
Proof. by destruct r. Qed.

End Unwrapping.

Section Mapping.
Import option result.

(** X5.  [map] with the identity gives a value equal to the receiver,
    on [Option] and on [Result], and so does [mapErr]. *)
Theorem map_identity :
  (∀ x : Option, equal (OptionImpl.map x (λ v, v)) x)
  ∧ (∀ r : Result, equal (ResultImpl.map r (λ v, v)) r)
  ∧ (∀ r : Result, equal (ResultImpl.mapErr r (λ e, e)) r).
Proof.
  split; [|split].
  - intros [v|]; [apply equal_Some_read | reflexivity].
  - intros [v|e]; [apply equal_Ok_read | reflexivity].
  - intros [v|e]; [reflexivity | apply equal_Err_read].
Qed.

(** X6.  Two [map]s in a row are one [map] with the composed callback,
    when the first callback never returns [null]. *)
Theorem Option_map_compose (x : Option) (f g : value → value) :
  (∀ v, f v ≠ null) →
  OptionImpl.map (OptionImpl.map x f) g = OptionImpl.map x (λ v, g (f v)).
Proof.
  intros Hf. destruct x as [v|]; [|done].
  unfold OptionImpl.map; simpl.
  by rewrite (read_value_Some_not_null _ (Hf _)).
Qed.

(** Witness: wrapping the payload of [Some(1)] twice. *)
Lemma Option_map_compose_witness :
  OptionImpl.map (OptionImpl.map (Some (number 1)) (λ v, Some v))
    (λ v, Ok v)
  = OptionImpl.map (Some (number 1)) (λ v, Ok (Some v)).
Proof.
  apply (Option_map_compose (Some (number 1))
           (λ v, Some v : value) (λ v, Ok v : value)).
  intros v. discriminate.
Defined.

(** And in general the second callback sees the result of the first one
    through the proxy: a [null] arrives as [undefined]. *)
Lemma Option_map_map (x : Option) (f g : value → value) :
  OptionImpl.map (OptionImpl.map x f) g
  = OptionImpl.map x (λ v, g (util.get (f v) trait_value)).
Proof. by destruct x. Qed.

(** X7.  On [Result], [map] and [mapErr] act on different sides and
    commute. *)
Theorem Result_map_mapErr_commute :
  (∀ (r : Result) (f g : value → value),
      ResultImpl.mapErr (ResultImpl.map r f) g
      = ResultImpl.map (ResultImpl.mapErr r g) f)
  ∧ (∀ (e : value) (f : value → value),
        ResultImpl.map (Err e) f = Err e)
  ∧ (∀ (v : value) (g : value → value),
        ResultImpl.mapErr (Ok v) g = Ok v).
Proof. split; [by intros [] | done]. Qed.

(** X8.  [map], [mapErr] and [zip] are instances of the binding
    methods. *)
Theorem maps_are_binds :
  (∀ (x : Option) (f : value → value),
      OptionImpl.map x f = OptionImpl.andThen x (λ v, Some (f v)))
  ∧ (∀ (r : Result) (f : value → value),
        ResultImpl.map r f = ResultImpl.andThen r (λ v, Ok (f v)))
  ∧ (∀ (r : Result) (f : value → value),
        ResultImpl.mapErr r f = ResultImpl.orElse r (λ e, Err (f e)))
  ∧ (∀ x y : Option,
        OptionImpl.zip x y
        = OptionImpl.andThen x
            (λ a, OptionImpl.map y (λ b, object (array [a; b])))).
Proof.
  split; [|split; [|split]].
  - by intros [].
  - by intros [].
  - by intros [].
  - by intros [a|] [b|].
Qed.

End Mapping.

Section LeftIdentity.
Import option result.

(** X9.  Binding a [Some], an [Ok] or, with [orElse], an [Err] applies
    the callback to the payload, when the payload is not [null]. *)
Theorem bind_left_identity
  (v : value) (f : value → Option) (g : value → Result) :
  v ≠ null →
  OptionImpl.andThen (Some v) f = f v
  ∧ ResultImpl.andThen (Ok v) g = g v
  ∧ ResultImpl.orElse (Err v) g = g v.
Proof.
  intros Hv.
  unfold OptionImpl.andThen, ResultImpl.andThen, ResultImpl.orElse; simpl.
  by rewrite (read_value_Some_not_null v Hv),
    (read_value_Ok_not_null v Hv), (read_value_Err_not_null v Hv).
Qed.

(** Witness: the payload [undefined], which is nullish but is read back
    as it is. *)
Lemma bind_left_identity_witness :
  OptionImpl.andThen (Some undefined) (λ v, Some (Ok v))
  = Some (Ok undefined).
Proof.
  refine (proj1 (bind_left_identity undefined (λ v, Some (Ok v))
                   (λ v, Ok v) _)).
  discriminate.
Defined.

End LeftIdentity.

Section Choosing.
Import option result.

(** X10.  On [Option], [or] keeps the first [Some] and [and] the first
    [None]: both are associative and idempotent, [None] is neutral for
    [or] and absorbing for [and], and each absorbs the other. *)
Theorem Option_or_and_laws (x y z : Option) :
  OptionImpl.or (OptionImpl.or x y) z = OptionImpl.or x (OptionImpl.or y z)
  ∧ OptionImpl.and (OptionImpl.and x y) z
    = OptionImpl.and x (OptionImpl.and y z)
  ∧ OptionImpl.or None x = x
  ∧ OptionImpl.or x None = x
  ∧ OptionImpl.and None x = None
  ∧ OptionImpl.and x None = None
  ∧ OptionImpl.or x x = x
  ∧ OptionImpl.and x x = x
  ∧ OptionImpl.or x (OptionImpl.and x y) = x
  ∧ OptionImpl.and x (OptionImpl.or x y) = x.
Proof. by destruct x, y, z. Qed.

(** X11.  On [Result], [or] keeps the first [Ok] and [and] the first
    [Err]: both are associative and idempotent, and each absorbs the
    other; an [Ok] is returned by [or] and an [Err] by [and] whatever the
    argument is. *)
Theorem Result_or_and_laws (r s t : Result) :
  ResultImpl.or (ResultImpl.or r s) t = ResultImpl.or r (ResultImpl.or s t)
  ∧ ResultImpl.and (ResultImpl.and r s) t
    = ResultImpl.and r (ResultImpl.and s t)
  ∧ ResultImpl.or r r = r
  ∧ ResultImpl.and r r = r
  ∧ ResultImpl.or r (ResultImpl.and r s) = r
  ∧ ResultImpl.and r (ResultImpl.or r s) = r
  ∧ isOk (ResultImpl.or r s) = isOk r || isOk s
  ∧ isOk (ResultImpl.and r s) = isOk r && isOk s.
Proof. by destruct r, s, t. Qed.

(** X12.  [filter] returns its receiver or [None], never another value:
    the receiver exactly when it is a [None] or the predicate holds of
    what the proxy reads.  Filtering twice is filtering by the
    conjunction, so the order does not matter and once is enough. *)
Theorem filter_laws (x : Option) (p q : value → bool) :
  (OptionImpl.filter x p = x
   ↔ isNone x = true ∨ p (read_value x) = true)
  ∧ (OptionImpl.filter x p = None
     ↔ isNone x = true ∨ p (read_value x) = false)
  ∧ OptionImpl.filter (OptionImpl.filter x p) q
    = OptionImpl.filter x (λ v, p v && q v)
  ∧ OptionImpl.filter (OptionImpl.filter x p) q
    = OptionImpl.filter (OptionImpl.filter x q) p
  ∧ OptionImpl.filter (OptionImpl.filter x p) p = OptionImpl.filter x p.
Proof.
  destruct x as [v|]; [|by repeat split; auto].
  unfold OptionImpl.filter; simpl.
  destruct (p (read_value (SomeClass v))) eqn:Hp,
    (q (read_value (SomeClass v))) eqn:Hq; simpl;
    rewrite ?Hp, ?Hq; simpl; rewrite ?Hp, ?Hq;
    repeat split; try done; intuition congruence.
Qed.

(** X13.  [zip] is a [Some] exactly when both are, and then holds the
    pair of the two payloads as the proxy reads them. *)
Theorem zip_laws (x y : Option) :
  isSome (OptionImpl.zip x y) = isSome x && isSome y
  ∧ (OptionImpl.zip x y = None ↔ x = None ∨ y = None)
  ∧ (∀ a b : value,
        OptionImpl.zip (Some a) (Some b)
        = Some (object (array [read_value (Some a); read_value (Some b)]))).
Proof.
  destruct x as [a|], y as [b|]; (split; [done|]); (split; [|done]);
    unfold OptionImpl.zip, Some, None; simpl; intuition congruence.
Qed.

End Choosing.

Section Converting.
Import option result.

(** X14.  Of [ok()] and [err()] exactly one is a [Some], the one of the
    receiver's side, and it holds what the proxy reads from the
    receiver.  From [Option] to [Result] and back, [okOr] then [ok]
    gives a value equal to the receiver; the other way round an [Ok]
    comes back and an [Err] comes back with the new error. *)
Theorem ok_err_laws :
  (∀ r : Result,
      isSome (ResultImpl.ok r) = isOk r
      ∧ isSome (ResultImpl.err r) = isErr r
      ∧ OptionImpl.xor (ResultImpl.ok r) (ResultImpl.err r)
        = Some (read_value r))
  ∧ (∀ (x : Option) (e : value),
        equal (ResultImpl.ok (OptionImpl.okOr x e)) x)
  ∧ (∀ v e : value,
        equal (OptionImpl.okOr (ResultImpl.ok (Ok v)) e) (Ok v))
  ∧ (∀ e' e : value, OptionImpl.okOr (ResultImpl.ok (Err e')) e = Err e).
Proof.
  split; [by intros [] | split; [|split; [|done]]].
  - intros [v|] e; [|reflexivity]. by destruct v.
  - intros v e. by destruct v.
Qed.

(** X15.  [ok()] carries [or], [and] and [andThen] of [Result] to those
    of [Option]; [err()] carries [or] to [and] and [and] to [or]. *)
Theorem ok_err_homomorphisms (r s : Result) (f : value → Result) :
  ResultImpl.ok (ResultImpl.or r s)
  = OptionImpl.or (ResultImpl.ok r) (ResultImpl.ok s)
  ∧ ResultImpl.ok (ResultImpl.and r s)
    = OptionImpl.and (ResultImpl.ok r) (ResultImpl.ok s)
  ∧ ResultImpl.ok (ResultImpl.andThen r f)
    = OptionImpl.andThen (ResultImpl.ok r) (λ v, ResultImpl.ok (f v))
  ∧ ResultImpl.err (ResultImpl.or r s)
    = OptionImpl.and (ResultImpl.err r) (ResultImpl.err s)
  ∧ ResultImpl.err (ResultImpl.and r s)
    = OptionImpl.or (ResultImpl.err r) (ResultImpl.err s).
Proof.
  destruct r as [v|e]; repeat split; try by destruct s.
  unfold ResultImpl.ok, ResultImpl.andThen, OptionImpl.andThen; simpl.
  by rewrite (read_value_Some_read (Ok v)).
Qed.

(** X16.  [transpose] calls [isOk] on the payload of a [Some]: it throws
    a [TypeError] when the payload is [undefined], [null], another
    primitive, an array or an [Option], none of which has that method,
    and completes on a [Result], keeping its side.  Likewise
    [transpose] on an [Ok] throws when the payload is a primitive, an
    array or a [Result], and completes on an [Option].  [None] and an
    [Err] are transposed whatever they hold. *)
Theorem transpose_TypeError :
  OptionImpl.transpose (Some undefined) = TypeError
  ∧ OptionImpl.transpose (Some null) = TypeError
  ∧ (∀ b, OptionImpl.transpose (Some (boolean b)) = TypeError)
  ∧ (∀ n, OptionImpl.transpose (Some (number n)) = TypeError)
  ∧ (∀ s, OptionImpl.transpose (Some (str s)) = TypeError)
  ∧ (∀ items, OptionImpl.transpose (Some (object (array items))) = TypeError)
  ∧ (∀ o : Option, OptionImpl.transpose (Some o) = TypeError)
  ∧ (∀ r : Result,
        ∃ s, OptionImpl.transpose (Some r) = normal s ∧ isOk s = isOk r)
  ∧ OptionImpl.transpose None = normal (Ok None)
  ∧ ResultImpl.transpose (Ok undefined) = TypeError
  ∧ ResultImpl.transpose (Ok null) = TypeError
  ∧ (∀ b, ResultImpl.transpose (Ok (boolean b)) = TypeError)
  ∧ (∀ n, ResultImpl.transpose (Ok (number n)) = TypeError)
  ∧ (∀ s, ResultImpl.transpose (Ok (str s)) = TypeError)
  ∧ (∀ items, ResultImpl.transpose (Ok (object (array items))) = TypeError)
  ∧ (∀ r : Result, ResultImpl.transpose (Ok r) = TypeError)
  ∧ (∀ o : Option,
        ∃ y, ResultImpl.transpose (Ok o) = normal y
             ∧ isSome y = isSome o)
  ∧ (∀ e : value,
        ∃ y, ResultImpl.transpose (Err e) = normal y ∧ isSome y = true).
Proof.
  repeat match goal with |- _ ∧ _ => split end; try done.
  - intros [v|e]; eexists; split; reflexivity.
  - intros [v|]; eexists; split; reflexivity.
  - intros e. eexists; split; reflexivity.
Qed.

(** X17.  The two adapters from a sentinel and [unwrapOr] with that
    sentinel: [fromNullable] then [unwrapOr(null)] gives every value
    back; [fromUndefinable] then [unwrapOr(undefined)] gives every value
    back but [null].  The other way round, [unwrapOr(null)] then
    [fromNullable] gives a value equal to the receiver, and
    [unwrapOr(undefined)] then [fromUndefinable] does unless the receiver
    is [Some(null)] or [Some(undefined)], which become [None]. *)
Theorem sentinel_adapters :
  (∀ v : value,
      (isNone (OptionImpl.fromNullable v) = true ↔ v = null)
      ∧ (isNone (OptionImpl.fromUndefinable v) = true ↔ v = undefined))
  ∧ (∀ v : value,
        OptionImpl.unwrapOr (OptionImpl.fromNullable v) null = v)
  ∧ (∀ v : value,
        OptionImpl.unwrapOr (OptionImpl.fromUndefinable v) undefined = v
        ↔ v ≠ null)
  ∧ (∀ x : Option,
        equal (OptionImpl.fromNullable (OptionImpl.unwrapOr x null)) x)
  ∧ (∀ x : Option,
        equal (OptionImpl.fromUndefinable (OptionImpl.unwrapOr x undefined))
          x
        ↔ x ≠ Some null ∧ x ≠ Some undefined)
  ∧ OptionImpl.fromUndefinable (OptionImpl.unwrapOr (Some null) undefined)
    = None.
Proof.
  split; [|split; [|split; [|split; [|split; [|reflexivity]]]]].
  - intros v. by destruct v.
  - intros v. by destruct v.
  - intros v. destruct v; split; solve [done | congruence].
  - intros [v|]; [|reflexivity]. by destruct v.
  - intros [v|]; unfold Some; [|by split].
    destruct v; split; solve [done | congruence | by intros []].
Qed.

End Converting.

(** * Further properties of the store layer *)

Section Aliasing.
Import Store.

(** The discriminators and [this.value] leave the store as it is. *)
Lemma load_store (v : value) (σ : store) : (load v σ).2 = σ.
Proof. destruct v as [| | | | |l]; try done. simpl. by destruct (σ !! l). Qed.

Lemma discriminator_store (v : value) (k : instance → M bool) (σ : store) :
  (∀ o, k o = mret true ∨ k o = mret false ∨ k o = throw) →
  ((load v ≫= k) σ).2 = σ.
Proof.
  intros Hk. pose proof (load_store v σ) as Hl.
  unfold mbind, M_bind. destruct (load v σ) as [[o|] σ']; simpl in *;
    subst; [|done].
  by destruct (Hk o) as [-> | [-> | ->]].
Qed.

Lemma isSome_store (v : value) (σ : store) : (option.isSome v σ).2 = σ.
Proof. apply discriminator_store. intros []; auto. Qed.

Lemma isNone_store (v : value) (σ : store) : (option.isNone v σ).2 = σ.
Proof. apply discriminator_store. intros []; auto. Qed.

Lemma isOk_store (v : value) (σ : store) : (result.isOk v σ).2 = σ.
Proof. apply discriminator_store. intros []; auto. Qed.

Lemma isErr_store (v : value) (σ : store) : (result.isErr v σ).2 = σ.
Proof. apply discriminator_store. intros []; auto. Qed.

Lemma get_value_store (v : value) (σ : store) : (get_value v σ).2 = σ.
Proof.
  destruct v as [| | | | |l]; try done.
  unfold get_value, mbind, M_bind. pose proof (load_store (object l) σ).
  by destruct (load (object l) σ) as [[o|] σ']; simpl in *; subst.
Qed.

(** A step that leaves the store as it is, then the rest. *)
Lemma bind_store {A B : Type} (m : M A) (k : A → M B) (σ : store) :
  (m σ).2 = σ → (∀ a, (k a σ).2 = σ) → ((m ≫= k) σ).2 = σ.
Proof.
  intros Hm Hk. unfold mbind, M_bind.
  destruct (m σ) as [[a|] σ']; simpl in *; subst; [apply Hk | done].
Qed.

Lemma and_also_store (a b : M bool) (σ : store) :
  (a σ).2 = σ → (b σ).2 = σ → (and_also a b σ).2 = σ.
Proof.
  intros Ha Hb. apply bind_store; [done|]. by intros [].
Qed.

End Aliasing.

(** Runs the discriminators of a goal in the store [σ]. *)
Ltac run_discriminators σ :=
  repeat match goal with
    | |- context [Store.option.isSome ?v σ] =>
        let H := fresh in
        pose proof (isSome_store v σ) as H;
        destruct (Store.option.isSome v σ) as [[[]|] ?];
        simpl in H; subst; simpl
    | |- context [Store.option.isNone ?v σ] =>
        let H := fresh in
        pose proof (isNone_store v σ) as H;
        destruct (Store.option.isNone v σ) as [[[]|] ?];
        simpl in H; subst; simpl
    | |- context [Store.result.isOk ?v σ] =>
        let H := fresh in
        pose proof (isOk_store v σ) as H;
        destruct (Store.result.isOk v σ) as [[[]|] ?];
        simpl in H; subst; simpl
    end.

Ltac store_unchanged :=
  repeat first
    [ reflexivity
    | apply isSome_store | apply isNone_store
    | apply isOk_store | apply isErr_store
    | apply get_value_store
    | apply and_also_store
    | match goal with
      | |- ((if ?b then _ else _) _).2 = _ => destruct b
      | |- ((_ ≫= _) _).2 = _ => apply bind_store; [|intros ?]
      end ].

(** X18.  The methods that choose among values that exist do not
    allocate: after a discriminator, [unwrapOr], [and], [or], [xor] or
    [flatten] the store is the one before the call, whatever the
    receiver and the arguments are, and [and], [or] and [xor] return the
    receiver, the argument or the one [None], not a copy. *)
Theorem selecting_methods_do_not_allocate
  (m : Store.method) (this : Store.value) (σ : Store.store) :
  match m with
  | Store.Option_isSome | Store.Option_isNone | Store.Option_unwrapOr _
  | Store.Option_flatten | Store.Result_isOk | Store.Result_isErr
  | Store.Result_unwrapOr _ =>
      (Store.invoke m this σ).2 = σ
  | Store.Option_and arg | Store.Option_or arg | Store.Option_xor arg
  | Store.Result_and arg | Store.Result_or arg =>
      (Store.invoke m this σ).2 = σ
      ∧ ∀ r, (Store.invoke m this σ).1 = normal r →
             r = this ∨ r = arg ∨ r = Store.option.None
  | _ => True
  end.
Proof.
  destruct m; try exact I; simpl; unfold_method;
    try (split; [store_unchanged|]); try solve [store_unchanged];
    intros r; unfold Store.and_also, mbind, Store.M_bind;
    run_discriminators σ; intros [=]; subst; auto.
Qed.

(** X19.  The methods that build a value allocate it: on a [Some],
    [okOr] returns a new [Ok] at the first free address, [map] returns a
    new [Some] allocated after its callback has run (so never its
    receiver, even with the identity), and passes on a [TypeError] of the
    callback without allocating; [zip] allocates the pair and then the
    [Some] that holds its address. *)
Theorem constructing_methods_allocate
  (σ : Store.store) (l : Store.loc) (v : Store.value) :
  σ !! l = Some (Store.SomeClass v) →
  let p := read_value (Store.SomeClass v) in
  (∀ err,
      Store.OptionImpl.okOr (object l) err σ
      = (normal (object (List.length σ)), σ ++ [Store.OkClass p]))
  ∧ (∀ f w σ1,
        f p σ = (normal w, σ1) →
        Store.OptionImpl.map (object l) f σ
        = (normal (object (List.length σ1)), σ1 ++ [Store.SomeClass w]))
  ∧ (∀ f σ1,
        f p σ = (TypeError, σ1) →
        Store.OptionImpl.map (object l) f σ = (TypeError, σ1))
  ∧ (∀ l' v',
        σ !! l' = Some (Store.SomeClass v') →
        Store.OptionImpl.zip (object l) (object l') σ
        = (normal (object (S (List.length σ))),
           σ ++ [Store.Array [p; read_value (Store.SomeClass v')];
                 Store.SomeClass (object (List.length σ))])).
Proof.
  intros Hl p. repeat split.
  - intros err.
    unfold Store.OptionImpl.okOr, Store.option.isSome, Store.get_value,
      Store.load, mbind, Store.M_bind, mret, Store.M_ret.
    rewrite Hl; cbv beta iota. by rewrite Hl.
  - intros f w σ1 Hf.
    unfold Store.OptionImpl.map, Store.option.isSome, Store.get_value,
      Store.load, mbind, Store.M_bind, mret, Store.M_ret.
    rewrite Hl; cbv beta iota. rewrite Hl; cbv beta iota.
    fold p. by rewrite Hf.
  - intros f σ1 Hf.
    unfold Store.OptionImpl.map, Store.option.isSome, Store.get_value,
      Store.load, mbind, Store.M_bind, mret, Store.M_ret.
    rewrite Hl; cbv beta iota. rewrite Hl; cbv beta iota.
    fold p. by rewrite Hf.
  - intros l' v' Hl'.
    unfold Store.OptionImpl.zip, Store.and_also, Store.option.isSome,
      Store.get_value, Store.load, mbind, Store.M_bind, mret, Store.M_ret.
    rewrite Hl; cbv beta iota. rewrite Hl'; cbv beta iota.
    rewrite Hl; cbv beta iota. rewrite Hl'; cbv beta iota.
    unfold Store.option.Some, Store.new.
    rewrite length_app, <- app_assoc; simpl length; simpl app.
    by rewrite Nat.add_1_r.
Qed.

(** Witness: [Some(2)] next to the one [None]. *)
Lemma constructing_methods_allocate_witness :
  Store.OptionImpl.okOr (object 1) null
    (Store.loaded ++ [Store.SomeClass (number 2)])
  = (normal (object 2),
     Store.loaded ++ [Store.SomeClass (number 2); Store.OkClass (number 2)]).
Proof.
  exact (proj1 (constructing_methods_allocate
                  (Store.loaded ++ [Store.SomeClass (number 2)]) 1
                  (number 2) eq_refl) null).
Defined.

(** X20.  Every method of [OptionImpl], called in a store on the address
    of an [Option], completes as the method does on the contents: with a
    result that has the contents of that result, or with a [TypeError]
    when that one throws, and having only allocated.  Callbacks are
    taken to do the same in both layers. *)
Theorem Option_methods_refine
  (σ : Store.store) (this : Store.value) (x : Option) :
  Store.loaded `prefix_of` σ →
  represents σ this x →
  (∀ def d, represents σ def d →
     simulates represents (Store.OptionImpl.unwrapOr this def)
       (normal (OptionImpl.unwrapOr x d)) σ)
  ∧ (∀ f g, thunk_simulates represents f g →
       simulates represents (Store.OptionImpl.unwrapOrElse this f)
         (normal (OptionImpl.unwrapOrElse x g)) σ)
  ∧ (∀ f g, callback_simulates represents f g →
       simulates represents (Store.OptionImpl.map this f)
         (normal (OptionImpl.map x g : value)) σ)
  ∧ (∀ def d f g, represents σ def d →
       callback_simulates represents f g →
       simulates represents (Store.OptionImpl.mapOr this def f)
         (normal (OptionImpl.mapOr x d g)) σ)
  ∧ (∀ def d f g, thunk_simulates represents def d →
       callback_simulates represents f g →
       simulates represents (Store.OptionImpl.mapOrElse this def f)
         (normal (OptionImpl.mapOrElse x d g)) σ)
  ∧ (∀ err e, represents σ err e →
       simulates represents (Store.OptionImpl.okOr this err)
         (normal (OptionImpl.okOr x e : value)) σ)
  ∧ (∀ err e, thunk_simulates represents err e →
       simulates represents (Store.OptionImpl.okOrElse this err)
         (normal (OptionImpl.okOrElse x e : value)) σ)
  ∧ (∀ optb (y : Option), represents σ optb y →
       simulates represents (Store.OptionImpl.and this optb)
         (normal (OptionImpl.and x y : value)) σ)
  ∧ (∀ f (g : value → Option),
       callback_simulates represents f (λ p, g p : value) →
       simulates represents (Store.OptionImpl.andThen this f)
         (normal (OptionImpl.andThen x g : value)) σ)
  ∧ (∀ predicate q, callback_simulates same_bool predicate q →
       simulates represents (Store.OptionImpl.filter this predicate)
         (normal (OptionImpl.filter x q : value)) σ)
  ∧ (∀ optb (y : Option), represents σ optb y →
       simulates represents (Store.OptionImpl.or this optb)
         (normal (OptionImpl.or x y : value)) σ)
  ∧ (∀ f (g : unit → Option),
       thunk_simulates represents f (λ u, g u : value) →
       simulates represents (Store.OptionImpl.orElse this f)
         (normal (OptionImpl.orElse x g : value)) σ)
  ∧ (∀ optb (y : Option), represents σ optb y →
       simulates represents (Store.OptionImpl.xor this optb)
         (normal (OptionImpl.xor x y : value)) σ)
  ∧ (∀ other (y : Option), represents σ other y →
       simulates represents (Store.OptionImpl.zip this other)
         (normal (OptionImpl.zip x y : value)) σ)
  ∧ simulates represents (Store.OptionImpl.transpose this)
      (Result_value <$> OptionImpl.transpose x) σ
  ∧ simulates represents (Store.OptionImpl.flatten this)
      (normal (OptionImpl.flatten x)) σ.
Proof.
  intros Hσ Hx.
  repeat split; intros;
    eauto using simulates_Option_unwrapOr, simulates_Option_unwrapOrElse,
      simulates_Option_map, simulates_Option_mapOr,
      simulates_Option_mapOrElse, simulates_Option_okOr,
      simulates_Option_okOrElse, simulates_Option_and,
      simulates_Option_andThen, simulates_Option_filter,
      simulates_Option_or, simulates_Option_orElse, simulates_Option_xor,
      simulates_Option_zip, simulates_Option_transpose,
      simulates_Option_flatten.
Qed.

(** Witness: [Some(2).flatten()] next to the one [None]. *)
Lemma Option_methods_refine_witness :
  simulates represents (Store.OptionImpl.flatten (object 1))
    (normal (OptionImpl.flatten (option.Some (number 2))))
    (Store.loaded ++ [Store.SomeClass (number 2)]).
Proof.
  refine (proj2 (proj2 (proj2 (proj2 (proj2 (proj2 (proj2 (proj2 (proj2
    (proj2 (proj2 (proj2 (proj2 (proj2 (proj2
      (Option_methods_refine
         (Store.loaded ++ [Store.SomeClass (number 2)]) (object 1)
         (option.Some (number 2)) _ _)))))))))))))))).
  - by apply prefix_app_r.
  - eapply represents_Some; [reflexivity | constructor].
Defined.

(** X21.  The same for every method of [ResultImpl], called on the
    address of a [Result]. *)
Theorem Result_methods_refine
  (σ : Store.store) (this : Store.value) (x : Result) :
  Store.loaded `prefix_of` σ →
  represents σ this x →
  simulates represents (Store.ResultImpl.ok this)
    (normal (ResultImpl.ok x : value)) σ
  ∧ simulates represents (Store.ResultImpl.err this)
      (normal (ResultImpl.err x : value)) σ
  ∧ (∀ op g, callback_simulates represents op g →
       simulates represents (Store.ResultImpl.map this op)
         (normal (ResultImpl.map x g : value)) σ)
  ∧ (∀ def d f g, represents σ def d →
       callback_simulates represents f g →
       simulates represents (Store.ResultImpl.mapOr this def f)
         (normal (ResultImpl.mapOr x d g)) σ)
  ∧ (∀ def d f g, callback_simulates represents def d →
       callback_simulates represents f g →
       simulates represents (Store.ResultImpl.mapOrElse this def f)
         (normal (ResultImpl.mapOrElse x d g)) σ)
  ∧ (∀ op g, callback_simulates represents op g →
       simulates represents (Store.ResultImpl.mapErr this op)
         (normal (ResultImpl.mapErr x g : value)) σ)
  ∧ (∀ res (y : Result), represents σ res y →
       simulates represents (Store.ResultImpl.and this res)
         (normal (ResultImpl.and x y : value)) σ)
  ∧ (∀ op (g : value → Result),
       callback_simulates represents op (λ p, g p : value) →
       simulates represents (Store.ResultImpl.andThen this op)
         (normal (ResultImpl.andThen x g : value)) σ)
  ∧ (∀ res (y : Result), represents σ res y →
       simulates represents (Store.ResultImpl.or this res)
         (normal (ResultImpl.or x y : value)) σ)
  ∧ (∀ op (g : value → Result),
       callback_simulates represents op (λ p, g p : value) →
       simulates represents (Store.ResultImpl.orElse this op)
         (normal (ResultImpl.orElse x g : value)) σ)
  ∧ (∀ def d, represents σ def d →
       simulates represents (Store.ResultImpl.unwrapOr this def)
         (normal (ResultImpl.unwrapOr x d)) σ)
  ∧ (∀ op g, callback_simulates represents op g →
       simulates represents (Store.ResultImpl.unwrapOrElse this op)
         (normal (ResultImpl.unwrapOrElse x g)) σ)
  ∧ simulates represents (Store.ResultImpl.transpose this)
      (Option_value <$> ResultImpl.transpose x) σ.
Proof.
  intros Hσ Hx.
  repeat split; intros;
    eauto using simulates_Result_ok, simulates_Result_err,
      simulates_Result_map, simulates_Result_mapOr,
      simulates_Result_mapOrElse, simulates_Result_mapErr,
      simulates_Result_and, simulates_Result_andThen, simulates_Result_or,
      simulates_Result_orElse, simulates_Result_unwrapOr,
      simulates_Result_unwrapOrElse, simulates_Result_transpose.
Qed.

(** Witness: [Ok(2).ok()] next to the one [None]. *)
Lemma Result_methods_refine_witness :
  simulates represents (Store.ResultImpl.ok (object 1))
    (normal (ResultImpl.ok (result.Ok (number 2)) : value))
    (Store.loaded ++ [Store.OkClass (number 2)]).
Proof.
  refine (proj1 (Result_methods_refine
                   (Store.loaded ++ [Store.OkClass (number 2)]) (object 1)
                   (result.Ok (number 2)) _ _)).
  - by apply prefix_app_r.
  - eapply represents_Ok; [reflexivity | constructor].
Defined.
